(** * A shallow embedding of the shooter's simulation core (shooter.cpp)

    The program is a single C++ file: a sphere tessellator, a camera, a
    renderable model, dynamic scene objects (cube enemies and snowballs), a
    player that throws snowballs, an enemy spawner and the frame loop of
    [main].  This development embeds the simulation part of that file and
    proves properties of it.

    Conventions of the embedding.
    - [GLfloat], [float] and [double] values are real numbers ([R]): the
      arithmetic is the exact one, rounding, overflow and NaN are outside
      the model.  [sin], [cos] and [sqrt] are the functions of the Reals
      library.
    - [int] values are integers ([Z]) and [size_t] indices are natural
      numbers; no loop of the file comes near the range limits.
    - [std::vector] is [list]; [v.push_back(a)] is [v ++ [a]] and [v[i]] is
      the total lookup [v !!! i].
    - [for] loops are iterated a number of times computed from their bounds
      ([for_int], [for_size_t]).
    - Pointers to heap objects are the objects themselves; [delete] is
      recorded by the list of destroyed objects and by the release of the
      texture in the graphics state.
    - GLFW, OpenGL, the asset loaders and the random engine are external:
      they are the fields of the class [Extern]; time and input are read
      from an explicit [World]. *)

From Stdlib Require Import Reals Lra Lia ZArith String Machin.
From stdpp Require Import base list.

Open Scope R_scope.

Abbreviation GLfloat := R.
Abbreviation GLuint := N.

(** [const float PI = 3.1416;] (the real number pi is [Rtrigo1.PI]). *)
Definition PI : R := 31416 / 10000.

(** ** Loops *)

(** [for (int i = lo; i < hi; ++i) body], as a state transformer. *)
Fixpoint iter_int {St : Type} (n : nat) (i : Z) (body : Z -> St -> St) (s : St) : St :=
  match n with
  | O => s
  | S n' => iter_int n' (i + 1)%Z body (body i s)
  end.

Definition for_int {St : Type} (lo hi : Z) (body : Z -> St -> St) (s : St) : St :=
  iter_int (Z.to_nat (hi - lo)) lo body s.

(** [for (size_t i = lo; i < hi; ++i) body]. *)
Fixpoint iter_size_t {St : Type} (n : nat) (i : nat) (body : nat -> St -> St) (s : St) : St :=
  match n with
  | O => s
  | S n' => iter_size_t n' (S i) body (body i s)
  end.

Definition for_size_t {St : Type} (lo hi : nat) (body : nat -> St -> St) (s : St) : St :=
  iter_size_t (hi - lo) lo body s.

(** Comparisons of the code, as booleans. *)
Definition Rltb (a b : R) : bool := if Rlt_dec a b then true else false.
Definition Rleb (a b : R) : bool := if Rle_dec a b then true else false.
Definition Rgtb (a b : R) : bool := if Rgt_dec a b then true else false.

(** ** The parts of GLM the file uses

    Vectors are records of their components, a [mat4] is the record of its
    four columns (GLM is column-major).  The functions follow GLM's own
    definitions. *)
Module glm.

Record vec2 : Type := mkvec2 { s : R; t : R }.
Record vec3 : Type := mkvec3 { x : R; y : R; z : R }.
Record vec4 : Type := mkvec4 { x4 : R; y4 : R; z4 : R; w4 : R }.
Record mat4 : Type := mkmat4 { col0 : vec4; col1 : vec4; col2 : vec4; col3 : vec4 }.

(** [glm::vec3(a)]: all components equal. *)
Definition splat3 (a : R) : vec3 := mkvec3 a a a.

Definition add3 (a b : vec3) : vec3 := mkvec3 (x a + x b) (y a + y b) (z a + z b).
Definition sub3 (a b : vec3) : vec3 := mkvec3 (x a - x b) (y a - y b) (z a - z b).
(** [v * k] and [k * v] *)
Definition scale3 (v : vec3) (k : R) : vec3 := mkvec3 (x v * k) (y v * k) (z v * k).
Definition lscale3 (k : R) (v : vec3) : vec3 := mkvec3 (k * x v) (k * y v) (k * z v).

Definition dot (a b : vec3) : R := x a * x b + y a * y b + z a * z b.
Definition length (v : vec3) : R := sqrt (dot v v).
Definition normalize (v : vec3) : vec3 := scale3 v (1 / sqrt (dot v v)).
Definition cross (a b : vec3) : vec3 :=
  mkvec3 (y a * z b - y b * z a) (z a * x b - z b * x a) (x a * y b - x b * y a).

Definition add4 (a b : vec4) : vec4 :=
  mkvec4 (x4 a + x4 b) (y4 a + y4 b) (z4 a + z4 b) (w4 a + w4 b).
Definition scale4 (v : vec4) (k : R) : vec4 :=
  mkvec4 (x4 v * k) (y4 v * k) (z4 v * k) (w4 v * k).

(** [glm::vec4(v, w)] and [glm::vec3(v4)] *)
Definition extend (v : vec3) (w : R) : vec4 := mkvec4 (x v) (y v) (z v) w.
Definition truncate (v : vec4) : vec3 := mkvec3 (x4 v) (y4 v) (z4 v).

(** [glm::mat4(1.0f)] *)
Definition identity : mat4 :=
  mkmat4 (mkvec4 1 0 0 0) (mkvec4 0 1 0 0) (mkvec4 0 0 1 0) (mkvec4 0 0 0 1).

(** [m * v] *)
Definition mul_vec (m : mat4) (v : vec4) : vec4 :=
  add4 (add4 (scale4 (col0 m) (x4 v)) (scale4 (col1 m) (y4 v)))
       (add4 (scale4 (col2 m) (z4 v)) (scale4 (col3 m) (w4 v))).

Definition translate (m : mat4) (v : vec3) : mat4 :=
  mkmat4 (col0 m) (col1 m) (col2 m)
         (add4 (add4 (scale4 (col0 m) (x v)) (scale4 (col1 m) (y v)))
               (add4 (scale4 (col2 m) (z v)) (col3 m))).

Definition scale (m : mat4) (v : vec3) : mat4 :=
  mkmat4 (scale4 (col0 m) (x v)) (scale4 (col1 m) (y v)) (scale4 (col2 m) (z v)) (col3 m).

Definition rotate (m : mat4) (angle : R) (v : vec3) : mat4 :=
  let c := cos angle in
  let sn := sin angle in
  let axis := normalize v in
  let temp := lscale3 (1 - c) axis in
  let r00 := c + x temp * x axis in
  let r01 := x temp * y axis + sn * z axis in
  let r02 := x temp * z axis - sn * y axis in
  let r10 := y temp * x axis - sn * z axis in
  let r11 := c + y temp * y axis in
  let r12 := y temp * z axis + sn * x axis in
  let r20 := z temp * x axis + sn * y axis in
  let r21 := z temp * y axis - sn * x axis in
  let r22 := c + z temp * z axis in
  mkmat4
    (add4 (add4 (scale4 (col0 m) r00) (scale4 (col1 m) r01)) (scale4 (col2 m) r02))
    (add4 (add4 (scale4 (col0 m) r10) (scale4 (col1 m) r11)) (scale4 (col2 m) r12))
    (add4 (add4 (scale4 (col0 m) r20) (scale4 (col1 m) r21)) (scale4 (col2 m) r22))
    (col3 m).

#[global] Instance vec3_inhabited : Inhabited vec3 := populate (mkvec3 0 0 0).
#[global] Instance vec2_inhabited : Inhabited vec2 := populate (mkvec2 0 0).

End glm.

(** ** [createSphere] *)

(** The three vectors the generator fills side by side. *)
Record Mesh : Type := mkMesh {
  mesh_vertices : list glm.vec3;
  mesh_normals : list glm.vec3;
  mesh_uvs : list glm.vec2
}.

Definition push_mesh (m : Mesh) (v n : glm.vec3) (uv : glm.vec2) : Mesh :=
  mkMesh (mesh_vertices m ++ [v]) (mesh_normals m ++ [n]) (mesh_uvs m ++ [uv]).

(** The three [push_back]s per output vector of one triangle [a => b => c]
    of the grid. *)
Definition push_triangle (grid out : Mesh) (a b c : Z) : Mesh :=
  mkMesh
    (mesh_vertices out ++ [mesh_vertices grid !!! Z.to_nat a;
                           mesh_vertices grid !!! Z.to_nat b;
                           mesh_vertices grid !!! Z.to_nat c])
    (mesh_normals out ++ [mesh_normals grid !!! Z.to_nat a;
                          mesh_normals grid !!! Z.to_nat b;
                          mesh_normals grid !!! Z.to_nat c])
    (mesh_uvs out ++ [mesh_uvs grid !!! Z.to_nat a;
                      mesh_uvs grid !!! Z.to_nat b;
                      mesh_uvs grid !!! Z.to_nat c]).

(** First pair of loops: the grid of [(stackCount+1) * (sectorCount+1)]
    points with their normals and texture coordinates. *)
Definition sphere_point (radius : R) (sectorCount stackCount : Z)
    (translation_mat : glm.mat4) (i j : Z) (grid : Mesh) : Mesh :=
  let lengthInv := 1 / radius in
  let sectorStep := 2 * PI / IZR sectorCount in
  let stackStep := PI / IZR stackCount in
  let stackAngle := PI / 2 - IZR i * stackStep in
  let xy := radius * cos stackAngle in
  let z := radius * sin stackAngle in
  let sectorAngle := IZR j * sectorStep in
  let x := xy * cos sectorAngle in
  let y := xy * sin sectorAngle in
  let vertex := glm.mul_vec translation_mat (glm.mkvec4 x y z 1) in
  let nx := x * lengthInv in
  let ny := y * lengthInv in
  let nz := z * lengthInv in
  let normal := glm.mul_vec translation_mat (glm.mkvec4 nx ny nz 0) in
  let s := IZR j / IZR sectorCount in
  let t := IZR i / IZR stackCount in
  push_mesh grid (glm.truncate vertex) (glm.truncate normal) (glm.mkvec2 s t).

Definition sphere_grid (radius : R) (sectorCount stackCount : Z)
    (position : glm.vec3) : Mesh :=
  let translation_mat := glm.translate glm.identity position in
  for_int 0 (stackCount + 1)
    (fun i grid =>
       for_int 0 (sectorCount + 1)
         (sphere_point radius sectorCount stackCount translation_mat i) grid)
    (mkMesh [] [] []).

(** Second pair of loops.  The state of the inner loop is [(k1, k2, out)]:
    its header increments [k1] and [k2] together with [j]. *)
Definition sphere_sector (grid : Mesh) (stackCount : Z) (i : Z) (j : Z)
    (st : Z * Z * Mesh) : Z * Z * Mesh :=
  let '(k1, k2, out) := st in
  let out1 :=
    if negb (i =? 0)%Z then push_triangle grid out k1 k2 (k1 + 1)%Z else out in
  let out2 :=
    if negb (i =? stackCount - 1)%Z
    then push_triangle grid out1 (k1 + 1)%Z k2 (k2 + 1)%Z else out1 in
  ((k1 + 1)%Z, (k2 + 1)%Z, out2).

Definition sphere_stack (grid : Mesh) (sectorCount stackCount : Z) (i : Z)
    (out : Mesh) : Mesh :=
  let k1 := (i * (sectorCount + 1))%Z in
  let k2 := (k1 + sectorCount + 1)%Z in
  snd (for_int 0 sectorCount (sphere_sector grid stackCount i) (k1, k2, out)).

(** [createSphere]: the three output vectors are passed by reference and
    appended to; the result is their final value. *)
Definition createSphere (radius : R) (sectorCount stackCount : Z)
    (out : Mesh) (position : glm.vec3) : Mesh :=
  let grid := sphere_grid radius sectorCount stackCount position in
  for_int 0 stackCount (sphere_stack grid sectorCount stackCount) out.

(** ** External collaborators

    Texture and mesh loading ([common/texture.hpp], [common/objloader.hpp]),
    the release of a texture, and the random engine with its uniform real
    distribution.  [loadOBJ] gives the vertices, the texture coordinates and
    the normals it reads from the file. *)
Class Extern : Type := {
  GLState : Type;
  loadBMP_custom : string -> GLState -> GLuint * GLState;
  glDeleteTextures : GLuint -> GLState -> GLState;
  loadOBJ : string -> list glm.vec3 * list glm.vec2 * list glm.vec3;
  mt19937 : Type;
  uniform_real_distribution : R -> R -> mt19937 -> R * mt19937
}.

(** What the program observes of its environment: the graphics state, the
    successive readings of the clock, the pointer and the left button. *)
Section GLFW.
Context `{Extern}.

Record World : Type := mkWorld {
  gl : GLState;
  clock : nat -> R;
  clock_reads : nat;
  cursor : R * R;
  mouse_button_left : bool
}.

(** Each call reads the next value of the clock. *)
Definition glfwGetTime (w : World) : R * World :=
  (clock w (clock_reads w),
   mkWorld (gl w) (clock w) (S (clock_reads w)) (cursor w) (mouse_button_left w)).

Definition glfwGetCursorPos (w : World) : R * R := cursor w.

Definition glfwSetCursorPos (xpos ypos : R) (w : World) : World :=
  mkWorld (gl w) (clock w) (clock_reads w) (xpos, ypos) (mouse_button_left w).

(** [glfwGetMouseButton(window, GLFW_MOUSE_BUTTON_LEFT) == GLFW_PRESS] *)
Definition glfwGetMouseButton (w : World) : bool := mouse_button_left w.

Definition set_gl (g : GLState) (w : World) : World :=
  mkWorld g (clock w) (clock_reads w) (cursor w) (mouse_button_left w).
End GLFW.

(** ** [class Camera] *)
Module Camera.

(** [static constexpr double PI = 3.1416;] *)
Definition PI : R := 31416 / 10000.

Record t : Type := mk {
  horizontal_angle_ : GLfloat;
  vertical_angle_ : GLfloat;
  fov_ : GLfloat
}.

Definition CameraDirection (c : t) : glm.vec3 :=
  glm.mkvec3 (cos (vertical_angle_ c) * sin (horizontal_angle_ c))
             (sin (vertical_angle_ c))
             (cos (vertical_angle_ c) * cos (horizontal_angle_ c)).

Definition CameraRight (c : t) : glm.vec3 :=
  glm.mkvec3 (sin (horizontal_angle_ c - PI / 2))
             0
             (cos (horizontal_angle_ c - PI / 2)).

Definition CameraUp (c : t) : glm.vec3 :=
  glm.cross (CameraRight c) (CameraDirection c).

Definition FOV (c : t) : GLfloat := fov_ c.

End Camera.

(** ** [class Model]

    [Draw] only talks to OpenGL and is not part of the embedding. *)
Module Model.

Record t : Type := mk {
  texture_ : GLuint;
  vertices_ : list glm.vec3;
  uvs_ : list glm.vec2
}.

Section WithExtern.
Context `{Extern}.

(** [Model(texture_file, vertices, uvs)] *)
Definition of_vertices (texture_file : string) (vertices : list glm.vec3)
    (uvs : list glm.vec2) (g : GLState) : t * GLState :=
  let '(texture, g') := loadBMP_custom texture_file g in
  (mk texture vertices uvs, g').

(** [Model(obj_file, texture_file)] *)
Definition of_obj (obj_file texture_file : string) (g : GLState) : t * GLState :=
  let '(texture, g') := loadBMP_custom texture_file g in
  let '(vertices, uvs, _) := loadOBJ obj_file in
  (mk texture vertices uvs, g').

(** [~Model()] *)
Definition destroy (m : t) (g : GLState) : GLState :=
  glDeleteTextures (texture_ m) g.
End WithExtern.

End Model.

(** ** [class SceneObject] and its two subclasses *)
Module SceneObject.

(** The dynamic type of an object, which decides the virtual call
    [IsSnowBall]. *)
Inductive dynamic_type : Type := IsSceneObject | IsCubeEnemy | IsSnowBallObject.

Record t : Type := mk {
  model : Model.t;
  position_ : glm.vec3;
  direction_ : glm.vec3;
  speed_ : GLfloat;
  collider_radius_ : GLfloat;
  class_ : dynamic_type
}.

Definition GetPosition (o : t) : glm.vec3 := position_ o.
Definition GetColliderRadius (o : t) : GLfloat := collider_radius_ o.
Definition GetDirection (o : t) : glm.vec3 := direction_ o.
Definition GetSpeed (o : t) : GLfloat := speed_ o.

Definition IsIntersected (this other : t) : bool :=
  Rltb (glm.length (glm.sub3 (position_ this) (GetPosition other)))
       (collider_radius_ this + GetColliderRadius other).

Definition IsSnowBall (o : t) : bool :=
  match class_ o with
  | IsSnowBallObject => true
  | _ => false
  end.

Definition Shift (step : glm.vec3) (o : t) : t :=
  mk (model o) (glm.add3 (position_ o) step) (direction_ o) (speed_ o)
     (collider_radius_ o) (class_ o).

Section WithExtern.
Context `{Extern}.

Definition of_vertices (position direction : glm.vec3)
    (speed collider_radius : GLfloat) (texture_file : string)
    (vertices : list glm.vec3) (uvs : list glm.vec2) (g : GLState) : t * GLState :=
  let '(m, g') := Model.of_vertices texture_file vertices uvs g in
  (mk m position direction speed collider_radius IsSceneObject, g').

Definition of_obj (position direction : glm.vec3)
    (speed collider_radius : GLfloat) (obj_file texture_file : string)
    (g : GLState) : t * GLState :=
  let '(m, g') := Model.of_obj obj_file texture_file g in
  (mk m position direction speed collider_radius IsSceneObject, g').

(** [delete obj] *)
Definition destroy (o : t) (g : GLState) : GLState := Model.destroy (model o) g.
End WithExtern.

#[global] Instance inhabited : Inhabited t :=
  populate (mk (Model.mk 0%N [] []) (glm.mkvec3 0 0 0) (glm.mkvec3 0 0 0) 0 0
               IsSceneObject).

End SceneObject.

Module CubeEnemy.
Section WithExtern.
Context `{Extern}.

(** [CubeEnemy(position, rotation, angle, scale_coef)] *)
Definition new (position rotation : glm.vec3) (angle scale_coef : R)
    (g : GLState) : SceneObject.t * GLState :=
  let '(o, g') :=
    SceneObject.of_obj position (glm.splat3 0) 0 2 "cube.obj" "enemy_texture.bmp" g in
  let scale_vec := glm.splat3 scale_coef in
  let transform_mat := glm.scale glm.identity scale_vec in
  let transform_mat := glm.rotate transform_mat angle rotation in
  let vertices :=
    map (fun vertex => glm.truncate (glm.mul_vec transform_mat (glm.extend vertex 1)))
        (Model.vertices_ (SceneObject.model o)) in
  (SceneObject.mk
     (Model.mk (Model.texture_ (SceneObject.model o)) vertices
               (Model.uvs_ (SceneObject.model o)))
     (SceneObject.position_ o) (SceneObject.direction_ o) (SceneObject.speed_ o)
     (SceneObject.collider_radius_ o * scale_coef)
     SceneObject.IsCubeEnemy,
   g').
End WithExtern.
End CubeEnemy.

Module SnowBall.
Section WithExtern.
Context `{Extern}.

(** [SnowBall(position, direction, exclusion_radius, sectorCount,
    stackCount, speed)] *)
Definition new_with (position direction : glm.vec3) (exclusion_radius : GLfloat)
    (sectorCount stackCount : Z) (speed : GLfloat)
    (g : GLState) : SceneObject.t * GLState :=
  let '(o, g') :=
    SceneObject.of_vertices position direction speed exclusion_radius
                            "ice_texture.bmp" [] [] g in
  let sphere :=
    createSphere exclusion_radius sectorCount stackCount
      (mkMesh (Model.vertices_ (SceneObject.model o)) []
              (Model.uvs_ (SceneObject.model o)))
      position in
  (SceneObject.mk
     (Model.mk (Model.texture_ (SceneObject.model o)) (mesh_vertices sphere)
               (mesh_uvs sphere))
     (SceneObject.position_ o) (SceneObject.direction_ o) (SceneObject.speed_ o)
     (SceneObject.collider_radius_ o)
     SceneObject.IsSnowBallObject,
   g').

(** The same with the default arguments, as [CreateSnowBall] calls it. *)
Definition new (position direction : glm.vec3) (g : GLState) : SceneObject.t * GLState :=
  new_with position direction (75 / 100) 15 15 13 g.
End WithExtern.
End SnowBall.

(** ** [class Player] *)
Module Player.

Record t : Type := mk {
  camera : Camera.t;
  position_ : glm.vec3;
  collider_radius_ : GLfloat;
  mouse_speed_ : GLfloat;
  timedelay_ : GLfloat;
  next_creation_time_ : GLfloat
}.

Definition GetPosition (p : t) : glm.vec3 := position_ p.
Definition GetColliderRadius (p : t) : GLfloat := collider_radius_ p.

(** The two assignments to the angles of the camera base. *)
Definition look (p : t) (xpos ypos : R) : t :=
  mk (Camera.mk
        (Camera.horizontal_angle_ (camera p) + mouse_speed_ p * (IZR (1024 / 2) - xpos))
        (Camera.vertical_angle_ (camera p) + mouse_speed_ p * (IZR (768 / 2) - ypos))
        (Camera.fov_ (camera p)))
     (position_ p) (collider_radius_ p) (mouse_speed_ p) (timedelay_ p)
     (next_creation_time_ p).

Definition set_next_creation_time (p : t) (time : GLfloat) : t :=
  mk (camera p) (position_ p) (collider_radius_ p) (mouse_speed_ p) (timedelay_ p) time.

Section WithExtern.
Context `{Extern}.

(** [Player(position, collider_radius, mouse_speed, timedelay)]; the member
    [next_creation_time_] is initialised with [glfwGetTime()]. *)
Definition new (position : glm.vec3) (collider_radius mouse_speed timedelay : GLfloat)
    (w : World) : t * World :=
  let '(now, w) := glfwGetTime w in
  (mk (Camera.mk 0 0 45) position collider_radius mouse_speed timedelay now, w).

Definition CreateSnowBall (p : t) (w : World) : option SceneObject.t * t * World :=
  let '(xpos, ypos) := glfwGetCursorPos w in
  let w := glfwSetCursorPos (IZR (1024 / 2)) (IZR (768 / 2)) w in
  let p := look p xpos ypos in
  let camera_direction := Camera.CameraDirection (camera p) in
  if glfwGetMouseButton w then
    let '(now, w) := glfwGetTime w in
    if Rgtb now (next_creation_time_ p) then
      let '(now', w) := glfwGetTime w in
      let p := set_next_creation_time p (now' + timedelay_ p) in
      let '(snowball, g) :=
        SnowBall.new (glm.add3 (position_ p) (glm.scale3 camera_direction (15 / 10)))
                     camera_direction (gl w) in
      (Some snowball, p, set_gl g w)
    else (None, p, w)
  else (None, p, w).

End WithExtern.
End Player.

(** ** [class EnemyCreator] *)
Module EnemyCreator.
Section WithExtern.
Context `{Extern}.

(** A [std::uniform_real_distribution<>] is the pair of its bounds. *)
Record t : Type := mk {
  timedelay_ : GLfloat;
  next_creation_time_ : GLfloat;
  rng_ : mt19937;
  angle_ : R * R;
  radius_ : R * R;
  size_ : R * R
}.

(** [dist(rng_)]: one draw, which advances the engine. *)
Definition draw (dist : t -> R * R) (c : t) : R * t :=
  let '(value, rng) := uniform_real_distribution (fst (dist c)) (snd (dist c)) (rng_ c) in
  (value, mk (timedelay_ c) (next_creation_time_ c) rng (angle_ c) (radius_ c) (size_ c)).

Definition set_next_creation_time (c : t) (time : GLfloat) : t :=
  mk (timedelay_ c) time (rng_ c) (angle_ c) (radius_ c) (size_ c).

(** [EnemyCreator(timedelay, min_radius, max_radius, min_size, max_size)];
    [seed] is the engine seeded from [std::random_device]. *)
Definition new (timedelay min_radius max_radius min_size max_size : GLfloat)
    (seed : mt19937) (w : World) : t * World :=
  let '(now, w) := glfwGetTime w in
  (mk timedelay now seed (0, 2 * PI) (min_radius, max_radius) (min_size, max_size), w).

Definition CreateEnemy (c : t) (position : glm.vec3) (w : World)
    : option SceneObject.t * t * World :=
  let '(now, w) := glfwGetTime w in
  if Rleb now (next_creation_time_ c) then (None, c, w)
  else
    let '(now', w) := glfwGetTime w in
    let c := set_next_creation_time c (now' + timedelay_ c) in
    let '(angle_rotation, c) := draw angle_ c in
    let '(phi, c) := draw angle_ c in
    let '(theta, c) := draw angle_ c in
    let rotation_axis :=
      glm.mkvec3 (cos phi * sin theta) (sin phi) (cos phi * cos theta) in
    let '(angle_position, c) := draw angle_ c in
    let direction := glm.mkvec3 (sin angle_position) 0 (cos angle_position) in
    let '(radius, c) := draw radius_ c in
    let new_position := glm.add3 position (glm.lscale3 radius direction) in
    let '(size, c) := draw size_ c in
    let '(new_obj, g) :=
      CubeEnemy.new new_position rotation_axis angle_rotation size (gl w) in
    (Some new_obj, c, set_gl g w).

End WithExtern.
End EnemyCreator.

(** ** The frame loop of [main]: one simulation tick

    The body of the [do ... while] loop up to the two spawns; what follows
    it only draws. *)
Section Main.
Context `{Extern}.

Record Game : Type := mkGame {
  objects : list SceneObject.t;
  player : Player.t;
  enemy_creator : EnemyCreator.t;
  prev_time : GLfloat;
  world : World
}.

(** [for (SceneObject* obj : objects) obj->Shift(...)] *)
Definition move_objects (timediff : GLfloat) (objects : list SceneObject.t)
    : list SceneObject.t :=
  map (fun obj =>
         SceneObject.Shift
           (glm.scale3 (glm.scale3 (SceneObject.GetDirection obj) (SceneObject.GetSpeed obj))
                       timediff)
           obj)
      objects.

(** The body of the inner loop of the collision pass, for the pair [(i, j)]. *)
Definition collide_pair (objects : list SceneObject.t) (i j : nat)
    (remains : list bool) : list bool :=
  if SceneObject.IsIntersected (objects !!! i) (objects !!! j) then
    if xorb (SceneObject.IsSnowBall (objects !!! i)) (SceneObject.IsSnowBall (objects !!! j))
    then <[i := false]> (<[j := false]> remains)
    else remains
  else remains.

(** The body of the outer loop: the [continue] guard, then the inner loop. *)
Definition collide_row (objects : list SceneObject.t) (i : nat)
    (remains : list bool) : list bool :=
  if negb (remains !!! i) && negb (SceneObject.IsSnowBall (objects !!! i))
  then remains
  else for_size_t (i + 1) (length objects) (collide_pair objects i) remains.

(** [remains] after the collision pass. *)
Definition collision_pass (objects : list SceneObject.t) : list bool :=
  for_size_t 0 (length objects) (collide_row objects)
    (replicate (length objects) true).

(** The loop that builds [alive_objects] and deletes the others; its state
    is the retained objects, the destroyed ones and the graphics state. *)
Definition sweep_step (objects : list SceneObject.t) (remains : list bool) (i : nat)
    (st : list SceneObject.t * list SceneObject.t * GLState)
    : list SceneObject.t * list SceneObject.t * GLState :=
  let '(alive_objects, destroyed, g) := st in
  if (remains !!! i : bool)
  then (alive_objects ++ [objects !!! i], destroyed, g)
  else (alive_objects, destroyed ++ [objects !!! i],
        SceneObject.destroy (objects !!! i) g).

Definition sweep (objects : list SceneObject.t) (remains : list bool) (g : GLState)
    : list SceneObject.t * list SceneObject.t * GLState :=
  for_size_t 0 (length objects) (sweep_step objects remains) ([], [], g).

(** [alive_objects] after one collision pass over [objects]. *)
Definition alive_objects (objects : list SceneObject.t) (g : GLState)
    : list SceneObject.t :=
  fst (fst (sweep objects (collision_pass objects) g)).

Definition push_back_if {A : Type} (v : list A) (p : option A) : list A :=
  match p with
  | Some a => v ++ [a]
  | None => v
  end.

(** One iteration of the loop: the new state and the objects it destroyed. *)
Definition tick (game : Game) : Game * list SceneObject.t :=
  let '(current_time, w) := glfwGetTime (world game) in
  let timediff := current_time - prev_time game in
  let objects := move_objects timediff (objects game) in
  let prev_time := current_time in
  let remains := collision_pass objects in
  let '(alive_objects, destroyed, g) := sweep objects remains (gl w) in
  let w := set_gl g w in
  let objects := alive_objects in
  let '(new_snowball, player, w) := Player.CreateSnowBall (player game) w in
  let objects := push_back_if objects new_snowball in
  let '(new_enemy, enemy_creator, w) :=
    EnemyCreator.CreateEnemy (enemy_creator game) (Player.GetPosition player) w in
  let objects := push_back_if objects new_enemy in
  (mkGame objects player enemy_creator prev_time w, destroyed).

(** [main] before the loop: the empty collection, [new Player()], the first
    reading of [prev_time] and the spawner, all with default arguments. *)
Definition start (seed : mt19937) (w : World) : Game :=
  let '(player, w) := Player.new (glm.splat3 0) 1 (5 / 1000) (2 / 10) w in
  let '(prev_time, w) := glfwGetTime w in
  let '(enemy_creator, w) := EnemyCreator.new 3 5 50 (5 / 10) 4 seed w in
  mkGame [] player enemy_creator prev_time w.

End Main.

(** * Notions used to state the properties *)

(** The Euclidean distance between two centres. *)
Definition euclidean_distance (c1 c2 : glm.vec3) : R :=
  sqrt (Rsqr (glm.x c1 - glm.x c2) + Rsqr (glm.y c1 - glm.y c2)
        + Rsqr (glm.z c1 - glm.z c2)).

(** [out'] has [k] more vertices, normals and texture coordinates than
    [out]. *)
Definition grown (out out' : Mesh) (k : Z) : Prop :=
  Z.of_nat (length (mesh_vertices out')) = (Z.of_nat (length (mesh_vertices out)) + k)%Z
  /\ Z.of_nat (length (mesh_normals out')) = (Z.of_nat (length (mesh_normals out)) + k)%Z
  /\ Z.of_nat (length (mesh_uvs out')) = (Z.of_nat (length (mesh_uvs out)) + k)%Z.

(** What one sector of stack [i] contributes: a triangle is three vertices. *)
Definition sector_vertices (stackCount i : Z) : Z :=
  ((if negb (i =? 0) then 3 else 0)
   + (if negb (i =? stackCount - 1) then 3 else 0))%Z.

(** The pair [(i, j)] meets the condition of the inner loop: the two objects
    intersect and exactly one of them is a snowball. *)
Definition hit (objects : list SceneObject.t) (i j : nat) : bool :=
  SceneObject.IsIntersected (objects !!! i) (objects !!! j)
  && xorb (SceneObject.IsSnowBall (objects !!! i)) (SceneObject.IsSnowBall (objects !!! j)).

(** Row [i] is not skipped by the [continue] of the outer loop: object [i] is
    a snowball, or no pair of an earlier row has marked it. *)
Definition examined (objects : list SceneObject.t) (i : nat) : Prop :=
  SceneObject.IsSnowBall (objects !!! i) = true
  \/ forall k, (k < i)%nat -> hit objects k i = false.

(** What the flags say after the rows below [i]: an object is marked when
    it belongs to a hit pair whose row was examined. *)
Definition marks_below (objects : list SceneObject.t) (i : nat) (remains : list bool) : Prop :=
  length remains = length objects
  /\ forall m,
       (m < length objects)%nat ->
       (remains !!! m = false <->
        exists a b, (a < i)%nat /\ (a < b < length objects)%nat /\ (m = a \/ m = b)
                    /\ examined objects a /\ hit objects a b = true).

(** The indices whose flag is still set, in increasing order. *)
Definition kept_indices (remains : list bool) : list nat :=
  filter (fun k => remains !!! k = true) (seq 0 (length remains)).

(** The point of the horizontal ring of radius [radius] around [position],
    at angle [planarAngle]. *)
Definition ring_point (position : glm.vec3) (radius planarAngle : R) : glm.vec3 :=
  glm.add3 position
           (glm.lscale3 radius (glm.mkvec3 (sin planarAngle) 0 (cos planarAngle))).

Section Throwing.
Context `{Extern}.

(** The player after the pointer has been read, and the direction of the
    camera then. *)
Definition looking (p : Player.t) (w : World) : Player.t :=
  Player.look p (fst (cursor w)) (snd (cursor w)).

Definition aim (p : Player.t) (w : World) : glm.vec3 :=
  Camera.CameraDirection (Player.camera (looking p w)).

(** The snowball [CreateSnowBall] makes when it makes one. *)
Definition thrown (p : Player.t) (w : World) : SceneObject.t * GLState :=
  SnowBall.new (glm.add3 (Player.position_ p) (glm.scale3 (aim p w) (15 / 10)))
               (aim p w) (gl w).

End Throwing.

(** [v] lies on the sphere of the given centre and radius. *)
Definition on_sphere (center : glm.vec3) (radius : R) (v : glm.vec3) : Prop :=
  Rsqr (glm.x v - glm.x center) + Rsqr (glm.y v - glm.y center)
  + Rsqr (glm.z v - glm.z center) = Rsqr radius.

(** A texture coordinate inside the unit square. *)
Definition in_unit_square (uv : glm.vec2) : Prop :=
  0 <= glm.s uv <= 1 /\ 0 <= glm.t uv <= 1.

(** [out'] is [out] with vertices, normals and texture coordinates appended
    that satisfy the three predicates. *)
Definition appended (Pv Pn : glm.vec3 -> Prop) (Pu : glm.vec2 -> Prop)
    (out out' : Mesh) : Prop :=
  exists vs ns us,
    mesh_vertices out' = mesh_vertices out ++ vs
    /\ mesh_normals out' = mesh_normals out ++ ns
    /\ mesh_uvs out' = mesh_uvs out ++ us
    /\ Forall Pv vs /\ Forall Pn ns /\ Forall Pu us.

(** The three vectors of a mesh satisfy the three predicates. *)
Definition mesh_all (Pv Pn : glm.vec3 -> Prop) (Pu : glm.vec2 -> Prop) (m : Mesh) : Prop :=
  Forall Pv (mesh_vertices m) /\ Forall Pn (mesh_normals m) /\ Forall Pu (mesh_uvs m).

(** * Examples to run the program on *)

(** A stand-in for the external collaborators: textures are numbered in the
    order they are loaded, the mesh file is empty, every draw gives the
    lower bound of its distribution. *)
Definition example_extern : Extern :=
  {| GLState := nat;
     loadBMP_custom := fun _ g => (N.of_nat g, S g);
     glDeleteTextures := fun _ g => g;
     loadOBJ := fun _ => ([], [], []);
     mt19937 := unit;
     uniform_real_distribution := fun a _ g => (a, g) |}.

Definition snowball_at (position : glm.vec3) : SceneObject.t :=
  fst (@SnowBall.new example_extern position (glm.mkvec3 0 0 1) 0%nat).

Definition enemy_at (position : glm.vec3) : SceneObject.t :=
  fst (@CubeEnemy.new example_extern position (glm.mkvec3 1 0 0) 0 1 0%nat).

(** A snowball, an enemy one unit further and a second snowball one more
    unit further: the enemy intersects both snowballs. *)
Definition two_snowballs_one_enemy : list SceneObject.t :=
  [snowball_at (glm.mkvec3 0 0 0); enemy_at (glm.mkvec3 1 0 0);
   snowball_at (glm.mkvec3 2 0 0)].

(** An enemy with a snowball one unit away on either side: the enemy
    intersects both snowballs and comes first in the collection. *)
Definition enemy_two_snowballs : list SceneObject.t :=
  [enemy_at (glm.mkvec3 0 0 0); snowball_at (glm.mkvec3 1 0 0);
   snowball_at (glm.mkvec3 (-1) 0 0)].

(** A snowball and an enemy that touch: the distance between the centres
    is the sum of the radii. *)
Definition touching_enemy : SceneObject.t := enemy_at (glm.mkvec3 (275 / 100) 0 0).

(** The readings of the clock: [1/2] when the player is created, [1] for
    the two readings of a first call of [CreateSnowBall], and [1.2] from
    then on. *)
Definition held_fire_clock (n : nat) : R :=
  if (n <? 1)%nat then 1 / 2 else if (n <? 3)%nat then 1 else 12 / 10.

(** [new Player()] with its default arguments, in a world where the left
    button is down. *)
Definition held_fire_start : Player.t * @World example_extern :=
  @Player.new example_extern (glm.splat3 0) 1 (5 / 1000) (2 / 10)
    (@mkWorld example_extern 0%nat held_fire_clock 0%nat (IZR 512, IZR 384) true).

Definition first_call : option SceneObject.t * Player.t * @World example_extern :=
  Player.CreateSnowBall (fst held_fire_start) (snd held_fire_start).

Definition second_call : option SceneObject.t * Player.t * @World example_extern :=
  Player.CreateSnowBall (snd (fst first_call)) (snd first_call).

(** The program started with the button released and a clock that stands
    still. *)
Definition idle_start : @Game example_extern :=
  @start example_extern tt
    (@mkWorld example_extern 0%nat (fun _ => 1) 0%nat (IZR 512, IZR 384) false).

(** The default spawner, created when the clock reads [1/2]. *)
Definition spawner_start : @EnemyCreator.t example_extern * @World example_extern :=
  @EnemyCreator.new example_extern 3 5 50 (5 / 10) 4 tt
    (@mkWorld example_extern 0%nat held_fire_clock 0%nat (IZR 512, IZR 384) false).

(** Two enemies that intersect. *)
Definition two_enemies : list SceneObject.t :=
  [enemy_at (glm.mkvec3 0 0 0); enemy_at (glm.mkvec3 1 0 0)].

(** A clock that reads [n] at its call number [n]. *)
Definition ticking_clock (n : nat) : R := INR n.

(** As [example_extern], with a mesh file that holds one corner of the
    cube. *)
Definition corner_extern : Extern :=
  {| GLState := nat;
     loadBMP_custom := fun _ g => (N.of_nat g, S g);
     glDeleteTextures := fun _ g => g;
     loadOBJ := fun _ => ([glm.mkvec3 1 1 1], [glm.mkvec2 0 0], [glm.mkvec3 0 0 1]);
     mt19937 := unit;
     uniform_real_distribution := fun a _ g => (a, g) |}.

(** * Properties *)

(** ** Comparisons *)

Lemma Rltb_true (a b : R) : Rltb a b = true <-> a < b.
Proof. unfold Rltb. destruct (Rlt_dec a b); split; intros; try easy. Qed.

Lemma Rltb_false (a b : R) : Rltb a b = false <-> b <= a.
Proof.
  unfold Rltb. destruct (Rlt_dec a b); split; intros; try easy; lra.
Qed.

Lemma Rleb_true (a b : R) : Rleb a b = true <-> a <= b.
Proof. unfold Rleb. destruct (Rle_dec a b); split; intros; try easy. Qed.

Lemma Rleb_false (a b : R) : Rleb a b = false <-> b < a.
Proof.
  unfold Rleb. destruct (Rle_dec a b); split; intros; try easy; lra.
Qed.

Lemma Rgtb_true (a b : R) : Rgtb a b = true <-> b < a.
Proof.
  unfold Rgtb. destruct (Rgt_dec a b); split; intros; try easy.
Qed.

Lemma Rgtb_false (a b : R) : Rgtb a b = false <-> a <= b.
Proof.
  unfold Rgtb. destruct (Rgt_dec a b); split; intros; try easy; lra.
Qed.

(** ** The intersection test *)

Lemma length_sub_distance (c1 c2 : glm.vec3) :
  glm.length (glm.sub3 c1 c2) = euclidean_distance c1 c2.
Proof. reflexivity. Qed.

Lemma euclidean_distance_sym (c1 c2 : glm.vec3) :
  euclidean_distance c1 c2 = euclidean_distance c2 c1.
Proof.
  unfold euclidean_distance. f_equal. unfold Rsqr. ring.
Qed.

Lemma IsIntersected_distance (a b : SceneObject.t) :
  SceneObject.IsIntersected a b = true <->
  euclidean_distance (SceneObject.GetPosition a) (SceneObject.GetPosition b)
  < SceneObject.GetColliderRadius a + SceneObject.GetColliderRadius b.
Proof.
  unfold SceneObject.IsIntersected. rewrite Rltb_true, length_sub_distance.
  reflexivity.
Qed.

(** C2: the test answers true exactly when the Euclidean distance between
    the two centres is strictly less than the sum of the two radii; for
    spheres that touch, where the distance equals the sum, it answers
    false. *)
Theorem IsIntersected_iff_distance_lt_radii (a b : SceneObject.t) :
  (SceneObject.IsIntersected a b = true <->
   euclidean_distance (SceneObject.GetPosition a) (SceneObject.GetPosition b)
   < SceneObject.GetColliderRadius a + SceneObject.GetColliderRadius b)
  /\ (euclidean_distance (SceneObject.GetPosition a) (SceneObject.GetPosition b)
      = SceneObject.GetColliderRadius a + SceneObject.GetColliderRadius b ->
      SceneObject.IsIntersected a b = false).
Proof.
  split.
  - apply IsIntersected_distance.
  - intros Htouch. unfold SceneObject.IsIntersected.
    rewrite Rltb_false, length_sub_distance.
    unfold SceneObject.GetPosition, SceneObject.GetColliderRadius in Htouch.
    unfold SceneObject.GetPosition, SceneObject.GetColliderRadius.
    rewrite Htouch. apply Rle_refl.
Qed.

Lemma IsIntersected_comm (a b : SceneObject.t) :
  SceneObject.IsIntersected a b = SceneObject.IsIntersected b a.
Proof.
  unfold SceneObject.IsIntersected, SceneObject.GetPosition,
    SceneObject.GetColliderRadius.
  rewrite !length_sub_distance.
  rewrite (euclidean_distance_sym (SceneObject.position_ a)).
  rewrite (Rplus_comm (SceneObject.collider_radius_ a)).
  reflexivity.
Qed.

(** C9: the test is symmetric in its two objects. *)
Theorem IsIntersected_symmetric (a b : SceneObject.t) :
  SceneObject.IsIntersected a b = SceneObject.IsIntersected b a.
Proof.
  unfold SceneObject.IsIntersected.
  f_equal.
  - rewrite !length_sub_distance. apply euclidean_distance_sym.
  - unfold SceneObject.GetColliderRadius. apply Rplus_comm.
Qed.

(** ** The camera *)

Lemma PI_bounds : 3141592 / 1000000 < Rtrigo1.PI < 31416 / 10000.
Proof.
  pose proof (PI_2_3_7_ineq 2) as [Hlow Hupp].
  unfold PI_2_3_7_tg, tg_alt, Ratan_seq in Hlow, Hupp.
  cbn -[Rplus Rmult Rdiv Rinv Ropp Rtrigo1.PI IZR] in Hlow, Hupp.
  split; lra.
Qed.

(** The cosine of the program's half turn is small and negative, not zero. *)
Lemma cos_half_PI_bounds : - (4 / 1000000) < cos (Camera.PI / 2) < 0.
Proof.
  pose proof PI_bounds as [Hlow Hupp].
  set (delta := Camera.PI / 2 - Rtrigo1.PI / 2).
  assert (Hdelta : 0 < delta < 4 / 1000000)
    by (unfold delta, Camera.PI; split; lra).
  replace (Camera.PI / 2) with (Rtrigo1.PI / 2 - (- delta))
    by (unfold delta; ring).
  rewrite cos_shift, sin_neg.
  assert (Hpos : 0 < sin delta) by (apply sin_gt_0; lra).
  assert (Hlt : sin delta < delta) by (apply sin_lt_x; lra).
  split; lra.
Qed.

Lemma dot_direction_right (c : Camera.t) :
  glm.dot (Camera.CameraDirection c) (Camera.CameraRight c)
  = cos (Camera.vertical_angle_ c) * cos (Camera.PI / 2).
Proof.
  unfold glm.dot, Camera.CameraDirection, Camera.CameraRight. cbn.
  rewrite sin_minus, cos_minus.
  pose proof (sin2_cos2 (Camera.horizontal_angle_ c)) as Hone.
  unfold Rsqr in Hone.
  set (sh := sin (Camera.horizontal_angle_ c)) in *.
  set (ch := cos (Camera.horizontal_angle_ c)) in *.
  set (cv := cos (Camera.vertical_angle_ c)).
  set (sq := sin (Camera.PI / 2)). set (cq := cos (Camera.PI / 2)).
  transitivity (cv * cq * (sh * sh + ch * ch)); [ring | rewrite Hone; ring].
Qed.

(** C7, as the code has it: the dot product of the view direction and the
    right vector is [cos v * cos (PI / 2)] for the program's constant
    [PI = 3.1416]; it is below [4e-6] in absolute value, and it is zero
    exactly when [cos v] is. *)
Theorem Direction_Right_nearly_orthogonal (c : Camera.t) :
  glm.dot (Camera.CameraDirection c) (Camera.CameraRight c)
  = cos (Camera.vertical_angle_ c) * cos (Camera.PI / 2)
  /\ Rabs (glm.dot (Camera.CameraDirection c) (Camera.CameraRight c)) < 4 / 1000000
  /\ (glm.dot (Camera.CameraDirection c) (Camera.CameraRight c) = 0
      <-> cos (Camera.vertical_angle_ c) = 0).
Proof.
  rewrite dot_direction_right.
  pose proof cos_half_PI_bounds as [Hlow Hupp].
  pose proof (COS_bound (Camera.vertical_angle_ c)) as [Hc1 Hc2].
  split; [reflexivity | split].
  - rewrite Rabs_mult.
    assert (Ha : Rabs (cos (Camera.vertical_angle_ c)) <= 1)
      by (apply Rabs_le; lra).
    assert (Hb : Rabs (cos (Camera.PI / 2)) < 4 / 1000000)
      by (apply Rabs_def1; lra).
    pose proof (Rabs_pos (cos (Camera.vertical_angle_ c))).
    pose proof (Rabs_pos (cos (Camera.PI / 2))).
    nra.
  - split.
    + intros Hzero. apply Rmult_integral in Hzero as [Hz | Hz]; [exact Hz | lra].
    + intros Hz. rewrite Hz. ring.
Qed.

(** C7 fails as stated: for the camera at rest (both angles zero) the dot
    product is not zero. *)
Lemma Direction_Right_not_orthogonal :
  glm.dot (Camera.CameraDirection (Camera.mk 0 0 45))
          (Camera.CameraRight (Camera.mk 0 0 45)) <> 0.
Proof.
  rewrite dot_direction_right. cbn.
  pose proof cos_half_PI_bounds as [_ Hneg].
  rewrite cos_0. lra.
Qed.

(** ** Motion *)

Section Motion.
Context `{Extern}.

Lemma SnowBall_new_fields (position direction : glm.vec3) (g : GLState) :
  let o := fst (SnowBall.new position direction g) in
  SceneObject.position_ o = position
  /\ SceneObject.direction_ o = direction
  /\ SceneObject.speed_ o = 13
  /\ SceneObject.collider_radius_ o = 75 / 100
  /\ SceneObject.IsSnowBall o = true
  /\ Model.vertices_ (SceneObject.model o)
     = mesh_vertices (createSphere (75 / 100) 15 15 (mkMesh [] [] []) position).
Proof.
  unfold SnowBall.new, SnowBall.new_with, SceneObject.of_vertices, Model.of_vertices.
  destruct (loadBMP_custom "ice_texture.bmp" g) as [texture g'].
  cbn [fst SceneObject.position_ SceneObject.direction_ SceneObject.speed_
       SceneObject.collider_radius_ SceneObject.model Model.vertices_
       Model.uvs_ Model.texture_].
  repeat split; reflexivity.
Qed.

(** C10: [Shift] adds the step to the position and leaves every other
    member as it was; the vertices of a snowball stay those of the sphere
    generated around the position it was created at, and the motion step of
    a tick changes no vertex of any object. *)
Theorem Shift_changes_only_position (step : glm.vec3) (o : SceneObject.t) :
  (SceneObject.position_ (SceneObject.Shift step o)
   = glm.add3 (SceneObject.position_ o) step
   /\ SceneObject.direction_ (SceneObject.Shift step o) = SceneObject.direction_ o
   /\ SceneObject.speed_ (SceneObject.Shift step o) = SceneObject.speed_ o
   /\ SceneObject.collider_radius_ (SceneObject.Shift step o)
      = SceneObject.collider_radius_ o
   /\ Model.vertices_ (SceneObject.model (SceneObject.Shift step o))
      = Model.vertices_ (SceneObject.model o)
   /\ Model.uvs_ (SceneObject.model (SceneObject.Shift step o))
      = Model.uvs_ (SceneObject.model o)
   /\ Model.texture_ (SceneObject.model (SceneObject.Shift step o))
      = Model.texture_ (SceneObject.model o)
   /\ SceneObject.IsSnowBall (SceneObject.Shift step o) = SceneObject.IsSnowBall o)
  /\ (forall (position direction : glm.vec3) (g : GLState),
        Model.vertices_
          (SceneObject.model
             (SceneObject.Shift step (fst (SnowBall.new position direction g))))
        = mesh_vertices (createSphere (75 / 100) 15 15 (mkMesh [] [] []) position))
  /\ (forall (timediff : GLfloat) (objects : list SceneObject.t),
        map (fun obj => Model.vertices_ (SceneObject.model obj))
            (move_objects timediff objects)
        = map (fun obj => Model.vertices_ (SceneObject.model obj)) objects).
Proof.
  split; [repeat split; reflexivity | split].
  - intros position direction g.
    destruct (SnowBall_new_fields position direction g)
      as (_ & _ & _ & _ & _ & Hvertices).
    exact Hvertices.
  - intros timediff objects. unfold move_objects.
    induction objects as [| obj objects IH]; [reflexivity |].
    cbn [map]. rewrite IH. reflexivity.
Qed.

End Motion.

(** ** Loop rules *)

Lemma iter_int_ind {St : Type} (P : Z -> St -> Prop) (body : Z -> St -> St)
    (n : nat) (lo : Z) (s : St) :
  P lo s ->
  (forall i st, (lo <= i < lo + Z.of_nat n)%Z -> P i st -> P (i + 1)%Z (body i st)) ->
  P (lo + Z.of_nat n)%Z (iter_int n lo body s).
Proof.
  revert lo s. induction n as [| n IH]; intros lo s Hinit Hstep.
  - cbn [iter_int]. replace (lo + Z.of_nat 0)%Z with lo by lia. exact Hinit.
  - cbn [iter_int].
    replace (lo + Z.of_nat (S n))%Z with ((lo + 1) + Z.of_nat n)%Z by lia.
    apply IH.
    + apply Hstep; [lia | exact Hinit].
    + intros i st Hi. apply Hstep. lia.
Qed.

Lemma for_int_ind {St : Type} (P : Z -> St -> Prop) (body : Z -> St -> St)
    (lo hi : Z) (s : St) :
  (lo <= hi)%Z ->
  P lo s ->
  (forall i st, (lo <= i < hi)%Z -> P i st -> P (i + 1)%Z (body i st)) ->
  P hi (for_int lo hi body s).
Proof.
  intros Hle Hinit Hstep. unfold for_int.
  replace hi with (lo + Z.of_nat (Z.to_nat (hi - lo)))%Z at 1 by lia.
  apply iter_int_ind; [exact Hinit |].
  intros i st Hi. apply Hstep. lia.
Qed.

Lemma iter_size_t_ind {St : Type} (P : nat -> St -> Prop) (body : nat -> St -> St)
    (n lo : nat) (s : St) :
  P lo s ->
  (forall i st, (lo <= i < lo + n)%nat -> P i st -> P (S i) (body i st)) ->
  P (lo + n)%nat (iter_size_t n lo body s).
Proof.
  revert lo s. induction n as [| n IH]; intros lo s Hinit Hstep.
  - cbn [iter_size_t]. replace (lo + 0)%nat with lo by lia. exact Hinit.
  - cbn [iter_size_t].
    replace (lo + S n)%nat with (S lo + n)%nat by lia.
    apply IH.
    + apply Hstep; [lia | exact Hinit].
    + intros i st Hi. apply Hstep. lia.
Qed.

Lemma for_size_t_ind {St : Type} (P : nat -> St -> Prop) (body : nat -> St -> St)
    (lo hi : nat) (s : St) :
  (lo <= hi)%nat ->
  P lo s ->
  (forall i st, (lo <= i < hi)%nat -> P i st -> P (S i) (body i st)) ->
  P hi (for_size_t lo hi body s).
Proof.
  intros Hle Hinit Hstep. unfold for_size_t.
  replace hi with (lo + (hi - lo))%nat at 1 by lia.
  apply iter_size_t_ind; [exact Hinit |].
  intros i st Hi. apply Hstep. lia.
Qed.

(** ** The sphere generator *)

Lemma grown_refl (out : Mesh) : grown out out 0.
Proof. unfold grown. lia. Qed.

Lemma grown_push_triangle (grid out out' : Mesh) (k a b c : Z) :
  grown out out' k -> grown out (push_triangle grid out' a b c) (k + 3).
Proof.
  unfold grown, push_triangle. cbn [mesh_vertices mesh_normals mesh_uvs].
  rewrite !length_app. cbn [length]. lia.
Qed.

Lemma grown_sphere_sector (grid out : Mesh) (stackCount i j k1 k2 k : Z) (out' : Mesh) :
  grown out out' k ->
  grown out (snd (sphere_sector grid stackCount i j (k1, k2, out')))
        (k + sector_vertices stackCount i).
Proof.
  intros Hgrown. unfold sphere_sector, sector_vertices. cbn [snd].
  destruct (negb (i =? 0)%Z), (negb (i =? stackCount - 1)%Z).
  - replace (k + (3 + 3))%Z with (k + 3 + 3)%Z by lia.
    apply grown_push_triangle, grown_push_triangle, Hgrown.
  - replace (k + (3 + 0))%Z with (k + 3)%Z by lia.
    apply grown_push_triangle, Hgrown.
  - replace (k + (0 + 3))%Z with (k + 3)%Z by lia.
    apply grown_push_triangle, Hgrown.
  - replace (k + (0 + 0))%Z with k by lia. exact Hgrown.
Qed.

Lemma grown_sphere_stack (grid out out' : Mesh) (sectorCount stackCount i k : Z) :
  (0 <= sectorCount)%Z ->
  grown out out' k ->
  grown out (sphere_stack grid sectorCount stackCount i out')
        (k + sectorCount * sector_vertices stackCount i).
Proof.
  intros Hsectors Hgrown. unfold sphere_stack.
  set (k1 := (i * (sectorCount + 1))%Z). set (k2 := (k1 + sectorCount + 1)%Z).
  apply (for_int_ind
           (fun j st => grown out (snd st) (k + j * sector_vertices stackCount i)));
    [exact Hsectors | | ].
  - cbn [snd]. replace (k + 0 * sector_vertices stackCount i)%Z with k by lia.
    exact Hgrown.
  - intros j [[k1' k2'] out''] Hj Hinv. cbn [snd] in Hinv.
    replace (k + (j + 1) * sector_vertices stackCount i)%Z
      with (k + j * sector_vertices stackCount i + sector_vertices stackCount i)%Z
      by lia.
    apply grown_sphere_sector, Hinv.
Qed.

(** After the stacks below [i]: every stack but the first has given its
    upper triangles, every stack but the last its lower ones. *)
Lemma grown_createSphere (radius : R) (sectorCount stackCount : Z) (out : Mesh)
    (position : glm.vec3) :
  (0 <= sectorCount)%Z -> (1 <= stackCount)%Z ->
  grown out (createSphere radius sectorCount stackCount out position)
        (sectorCount * (3 * (stackCount - 1) + 3 * (stackCount - 1))).
Proof.
  intros Hsectors Hstacks. unfold createSphere.
  set (grid := sphere_grid radius sectorCount stackCount position).
  replace (3 * (stackCount - 1) + 3 * (stackCount - 1))%Z
    with (3 * Z.max (stackCount - 1) 0 + 3 * Z.min stackCount (stackCount - 1))%Z
    by lia.
  apply (for_int_ind
           (fun i out' =>
              grown out out'
                (sectorCount * (3 * Z.max (i - 1) 0 + 3 * Z.min i (stackCount - 1)))));
    [lia | | ].
  - replace (3 * Z.max (0 - 1) 0 + 3 * Z.min 0 (stackCount - 1))%Z with 0%Z by lia.
    rewrite Z.mul_0_r. apply grown_refl.
  - intros i out' Hi Hinv.
    replace (sectorCount * (3 * Z.max (i + 1 - 1) 0 + 3 * Z.min (i + 1) (stackCount - 1)))%Z
      with (sectorCount * (3 * Z.max (i - 1) 0 + 3 * Z.min i (stackCount - 1))
            + sectorCount * sector_vertices stackCount i)%Z.
    + apply grown_sphere_stack; [exact Hsectors | exact Hinv].
    + rewrite <- Z.mul_add_distr_l. f_equal. unfold sector_vertices.
      destruct (Z.eqb_spec i 0), (Z.eqb_spec i (stackCount - 1)); cbn [negb]; lia.
Qed.

(** The grid holds [(stackCount + 1) * (sectorCount + 1)] points. *)
Lemma sphere_grid_size (radius : R) (sectorCount stackCount : Z) (position : glm.vec3) :
  (0 <= sectorCount)%Z -> (0 <= stackCount)%Z ->
  grown (mkMesh [] [] []) (sphere_grid radius sectorCount stackCount position)
        ((stackCount + 1) * (sectorCount + 1)).
Proof.
  intros Hsectors Hstacks. unfold sphere_grid.
  apply (for_int_ind
           (fun i grid => grown (mkMesh [] [] []) grid (i * (sectorCount + 1))));
    [lia | apply grown_refl |].
  intros i grid Hi Hinv.
  replace ((i + 1) * (sectorCount + 1))%Z
    with (i * (sectorCount + 1) + (sectorCount + 1))%Z by ring.
  apply (for_int_ind
           (fun j grid' => grown (mkMesh [] [] []) grid' (i * (sectorCount + 1) + j)));
    [lia | rewrite Z.add_0_r; exact Hinv |].
  intros j grid' Hj [Hv [Hn Hu]].
  unfold grown, sphere_point, push_mesh in *.
  cbn [mesh_vertices mesh_normals mesh_uvs] in *.
  rewrite !length_app. cbn [length] in *. lia.
Qed.

(** In stack [i], at sector [j], [k1] and [k2] are the positions [(i, j)] and
    [(i + 1, j)] of the grid. *)
Lemma sphere_sector_indices (grid : Mesh) (stackCount i j k1 k2 : Z) (out : Mesh) :
  (0 <= j)%Z ->
  fst (for_int 0 j (sphere_sector grid stackCount i) (k1, k2, out))
  = ((k1 + j)%Z, (k2 + j)%Z).
Proof.
  intros Hj.
  apply (for_int_ind (fun j' st => fst st = ((k1 + j')%Z, (k2 + j')%Z)));
    [exact Hj | cbn [fst]; f_equal; lia |].
  intros j' [[k1' k2'] out'] _ Hinv. cbn [fst] in Hinv.
  injection Hinv as -> ->. unfold sphere_sector. cbn [fst]. f_equal; lia.
Qed.

(** So the largest index read, [k2 + 1], is inside the grid. *)
Lemma sphere_indices_in_grid (sectorCount stackCount i j : Z) :
  (0 <= i < stackCount)%Z -> (0 <= j < sectorCount)%Z ->
  (0 <= i * (sectorCount + 1) + j
   /\ i * (sectorCount + 1) + sectorCount + 1 + j + 1
      < (stackCount + 1) * (sectorCount + 1))%Z.
Proof. intros Hi Hj. split; nia. Qed.

(** C4: for [sectorCount >= 1] and [stackCount >= 1] the generator appends
    exactly [stackCount * sectorCount * 6 - 2 * sectorCount * 3] vertices to
    its output, and as many normals and texture coordinates.  Stack by
    stack: when there are at least two stacks, the first and the last one
    give one triangle (three vertices) per sector and every other stack
    two. *)
Theorem createSphere_vertex_count (radius : R) (sectorCount stackCount : Z)
    (out : Mesh) (position : glm.vec3) :
  (1 <= sectorCount)%Z -> (1 <= stackCount)%Z ->
  let out' := createSphere radius sectorCount stackCount out position in
  (Z.of_nat (length (mesh_vertices out'))
   = (Z.of_nat (length (mesh_vertices out))
      + (stackCount * sectorCount * 6 - 2 * sectorCount * 3))%Z
   /\ Z.of_nat (length (mesh_normals out'))
      = (Z.of_nat (length (mesh_normals out))
         + (stackCount * sectorCount * 6 - 2 * sectorCount * 3))%Z
   /\ Z.of_nat (length (mesh_uvs out'))
      = (Z.of_nat (length (mesh_uvs out))
         + (stackCount * sectorCount * 6 - 2 * sectorCount * 3))%Z)
  /\ (forall (i : Z) (acc : Mesh),
        (2 <= stackCount)%Z -> (0 <= i < stackCount)%Z ->
        grown acc
              (sphere_stack (sphere_grid radius sectorCount stackCount position)
                            sectorCount stackCount i acc)
              (sectorCount
               * (if (i =? 0)%Z || (i =? stackCount - 1)%Z then 3 else 6))).
Proof.
  intros Hsectors Hstacks out'. split.
  - replace (stackCount * sectorCount * 6 - 2 * sectorCount * 3)%Z
      with (sectorCount * (3 * (stackCount - 1) + 3 * (stackCount - 1)))%Z by ring.
    apply grown_createSphere; lia.
  - intros i acc Htwo Hi.
    replace (if (i =? 0)%Z || (i =? stackCount - 1)%Z then 3 else 6)%Z
      with (sector_vertices stackCount i).
    + rewrite <- (Z.add_0_l (sectorCount * sector_vertices stackCount i)).
      apply grown_sphere_stack; [lia | apply grown_refl].
    + unfold sector_vertices.
      destruct (Z.eqb_spec i 0), (Z.eqb_spec i (stackCount - 1));
        cbn [negb orb]; lia.
Qed.

(** The generator with the tessellation of a snowball, on empty vectors:
    [15 * 15 * 6 - 2 * 15 * 3 = 1260] vertices. *)
Lemma createSphere_vertex_count_witness :
  let out' :=
    createSphere (75 / 100) 15 15 (mkMesh [] [] []) (glm.mkvec3 0 0 0) in
  Z.of_nat (length (mesh_vertices out')) = 1260%Z
  /\ Z.of_nat (length (mesh_normals out')) = 1260%Z
  /\ Z.of_nat (length (mesh_uvs out')) = 1260%Z.
Proof.
  destruct (createSphere_vertex_count (75 / 100) 15 15 (mkMesh [] [] [])
                                      (glm.mkvec3 0 0 0)) as [Hcount _];
    [lia | lia |].
  cbn [mesh_vertices mesh_normals mesh_uvs length] in Hcount.
  exact Hcount.
Defined.

(** ** The collision pass *)

Lemma collide_pair_length (objects : list SceneObject.t) (i j : nat) (remains : list bool) :
  length (collide_pair objects i j remains) = length remains.
Proof.
  unfold collide_pair.
  destruct (SceneObject.IsIntersected _ _); [| reflexivity].
  destruct (xorb _ _); [| reflexivity].
  rewrite !length_insert. reflexivity.
Qed.

Lemma collide_pair_lookup (objects : list SceneObject.t) (i j m : nat)
    (remains : list bool) :
  (i < length remains)%nat -> (j < length remains)%nat ->
  collide_pair objects i j remains !!! m = false <->
  remains !!! m = false \/ (hit objects i j = true /\ (m = i \/ m = j)).
Proof.
  intros Hi Hj. unfold collide_pair, hit.
  destruct (SceneObject.IsIntersected _ _); cbn [andb];
    [destruct (xorb _ _) |]; try (intuition congruence).
  destruct (decide (m = i)) as [-> | Hmi].
  - rewrite list_lookup_total_insert_eq by (rewrite length_insert; exact Hi).
    intuition.
  - rewrite list_lookup_total_insert_ne by congruence.
    destruct (decide (m = j)) as [-> | Hmj].
    + rewrite list_lookup_total_insert_eq by exact Hj. intuition.
    + rewrite list_lookup_total_insert_ne by congruence. intuition.
Qed.

(** The inner loop of row [i]. *)
Lemma collide_inner_lookup (objects : list SceneObject.t) (i : nat) (remains : list bool) :
  length remains = length objects -> (i < length objects)%nat ->
  let remains' :=
    for_size_t (i + 1) (length objects) (collide_pair objects i) remains in
  length remains' = length objects
  /\ forall m,
       remains' !!! m = false <->
       remains !!! m = false
       \/ exists j, (i < j < length objects)%nat /\ hit objects i j = true
                    /\ (m = i \/ m = j).
Proof.
  intros Hlen Hi remains'. subst remains'.
  apply (for_size_t_ind
           (fun j r =>
              length r = length objects
              /\ forall m,
                   r !!! m = false <->
                   remains !!! m = false
                   \/ exists j', (i < j' < j)%nat /\ hit objects i j' = true
                                 /\ (m = i \/ m = j'))).
  - lia.
  - split; [exact Hlen |]. intros m. split; [tauto |].
    intros [Hm | (j' & Hj' & _)]; [exact Hm | lia].
  - intros j r Hj [Hr Hinv]. split.
    + rewrite collide_pair_length. exact Hr.
    + intros m. rewrite collide_pair_lookup by lia. rewrite Hinv. split.
      * intros [[Hm | (j' & Hj' & Hhit & Hmj)] | [Hhit Hmj]].
        -- left. exact Hm.
        -- right. exists j'. split; [lia | tauto].
        -- right. exists j. split; [lia | tauto].
      * intros [Hm | (j' & Hj' & Hhit & Hmj)]; [tauto |].
        destruct (decide (j' = j)) as [-> | Hne]; [tauto |].
        left. right. exists j'. split; [lia | tauto].
Qed.

(** A hit on an enemy comes from a snowball, whose row is never skipped. *)
Lemma hit_enemy_examined (objects : list SceneObject.t) (a i : nat) :
  hit objects a i = true ->
  SceneObject.IsSnowBall (objects !!! i) = false ->
  examined objects a.
Proof.
  unfold hit, examined. intros Hhit Henemy. rewrite Henemy in Hhit.
  apply andb_prop in Hhit as [_ Hxor].
  left. destruct (SceneObject.IsSnowBall (objects !!! a)); [reflexivity | discriminate].
Qed.

Lemma collide_row_marks (objects : list SceneObject.t) (i : nat) (remains : list bool) :
  (i < length objects)%nat ->
  marks_below objects i remains ->
  marks_below objects (S i) (collide_row objects i remains).
Proof.
  intros Hi [Hlen Hinv]. unfold collide_row.
  assert (Hmarked : remains !!! i = false ->
                    exists a, (a < i)%nat /\ examined objects a /\ hit objects a i = true).
  { intros Hfalse. apply Hinv in Hfalse as (a & b & Ha & Hb & Hm & Hex & Hhit); [| exact Hi].
    destruct Hm as [-> | ->]; [lia |]. exists a. tauto. }
  destruct (negb (remains !!! i) && negb (SceneObject.IsSnowBall (objects !!! i)))
    eqn:Hguard.
  - (* the row is skipped *)
    apply andb_prop in Hguard as [Hfalse Henemy].
    apply negb_true_iff in Hfalse, Henemy.
    destruct (Hmarked Hfalse) as (a0 & Ha0 & _ & Hhit0).
    assert (Hskip : ~ examined objects i).
    { intros [Hsnow | Hnone]; [congruence |].
      rewrite (Hnone a0 Ha0) in Hhit0. discriminate. }
    split; [exact Hlen |]. intros m Hm. rewrite (Hinv m Hm). split.
    + intros (a & b & Ha & Hrest). exists a, b. split; [lia | exact Hrest].
    + intros (a & b & Ha & Hb & Hmab & Hex & Hhit).
      destruct (decide (a = i)) as [-> | Hne]; [contradiction |].
      exists a, b. split; [lia | tauto].
  - (* the row is examined *)
    assert (Hex : examined objects i).
    { apply andb_false_iff in Hguard as [Htrue | Hsnow].
      - apply negb_false_iff in Htrue.
        destruct (SceneObject.IsSnowBall (objects !!! i)) eqn:Hkind;
          [left; exact Hkind | right].
        intros k Hk. destruct (hit objects k i) eqn:Hhit; [| reflexivity].
        assert (Hfalse : remains !!! i = false).
        { apply Hinv; [exact Hi |]. exists k, i.
          split; [exact Hk | split; [lia | split; [tauto |]]].
          split; [eapply hit_enemy_examined; eassumption | exact Hhit]. }
        congruence.
      - apply negb_false_iff in Hsnow. left. exact Hsnow. }
    destruct (collide_inner_lookup objects i remains Hlen Hi) as [Hlen' Hrow].
    split; [exact Hlen' |]. intros m Hm. rewrite Hrow, (Hinv m Hm). split.
    + intros [(a & b & Ha & Hrest) | (j & Hj & Hhit & Hmj)].
      * exists a, b. split; [lia | exact Hrest].
      * exists i, j. split; [lia | tauto].
    + intros (a & b & Ha & Hb & Hmab & Hexa & Hhit).
      destruct (decide (a = i)) as [-> | Hne].
      * right. exists b. tauto.
      * left. exists a, b. split; [lia | tauto].
Qed.

(** The collision pass, characterised: an object is marked for removal
    exactly when it belongs to a pair [(a, b)], [a < b], that intersects with
    exactly one snowball and whose row [a] was examined. *)
Lemma collision_pass_marks (objects : list SceneObject.t) :
  length (collision_pass objects) = length objects
  /\ forall m,
       (m < length objects)%nat ->
       (collision_pass objects !!! m = false <->
        exists a b, (a < b < length objects)%nat /\ (m = a \/ m = b)
                    /\ examined objects a /\ hit objects a b = true).
Proof.
  assert (Hpass : marks_below objects (length objects) (collision_pass objects)).
  { unfold collision_pass. apply (for_size_t_ind (marks_below objects)).
    - lia.
    - split; [apply length_replicate |]. intros m Hm.
      rewrite lookup_total_replicate_2 by exact Hm. split; [discriminate |].
      intros (a & _ & Ha & _). lia.
    - intros i r Hi Hinv. apply collide_row_marks; [lia | exact Hinv]. }
  destruct Hpass as [Hlen Hinv]. split; [exact Hlen |].
  intros m Hm. rewrite (Hinv m Hm). split.
  - intros (a & b & _ & Hrest). exists a, b. exact Hrest.
  - intros (a & b & Hab & Hrest). exists a, b.
    split; [lia | split; [exact Hab | exact Hrest]].
Qed.

(** ** The sweep *)

Section Sweep.
Context `{Extern}.

Lemma CubeEnemy_new_fields (position rotation : glm.vec3) (angle scale_coef : R)
    (g : GLState) :
  let o := fst (CubeEnemy.new position rotation angle scale_coef g) in
  SceneObject.position_ o = position
  /\ SceneObject.direction_ o = glm.splat3 0
  /\ SceneObject.speed_ o = 0
  /\ SceneObject.collider_radius_ o = 2 * scale_coef
  /\ SceneObject.IsSnowBall o = false.
Proof.
  unfold CubeEnemy.new, SceneObject.of_obj, Model.of_obj.
  destruct (loadBMP_custom "enemy_texture.bmp" g) as [texture g'].
  destruct (loadOBJ "cube.obj") as [[vertices uvs] normals].
  cbn [fst SceneObject.position_ SceneObject.direction_ SceneObject.speed_
       SceneObject.collider_radius_ SceneObject.model Model.vertices_
       Model.uvs_ Model.texture_].
  repeat split; reflexivity.
Qed.

Lemma sweep_lists (objects : list SceneObject.t) (remains : list bool) (g : GLState) :
  fst (fst (sweep objects remains g))
  = map (fun k => objects !!! k)
        (filter (fun k => remains !!! k = true) (seq 0 (length objects)))
  /\ snd (fst (sweep objects remains g))
     = map (fun k => objects !!! k)
           (filter (fun k => remains !!! k = false) (seq 0 (length objects))).
Proof.
  unfold sweep.
  apply (for_size_t_ind
           (fun i st =>
              fst (fst st)
              = map (fun k => objects !!! k)
                    (filter (fun k => remains !!! k = true) (seq 0 i))
              /\ snd (fst st)
                 = map (fun k => objects !!! k)
                       (filter (fun k => remains !!! k = false) (seq 0 i)))).
  - lia.
  - split; reflexivity.
  - intros i [[alive destroyed] g'] Hi [Halive Hdestroyed].
    cbn [fst snd] in Halive, Hdestroyed.
    rewrite seq_S, !filter_app, !map_app. cbn [Nat.add].
    unfold sweep_step.
    destruct (remains !!! i) eqn:Hflag; cbn [fst snd].
    + rewrite (filter_cons_True _ i []) by exact Hflag.
      rewrite (filter_cons_False _ i []) by congruence.
      rewrite filter_nil. cbn [map]. rewrite app_nil_r.
      split; [rewrite Halive; reflexivity | exact Hdestroyed].
    + rewrite (filter_cons_False _ i []) by congruence.
      rewrite (filter_cons_True _ i []) by exact Hflag.
      rewrite filter_nil. cbn [map]. rewrite app_nil_r.
      split; [exact Halive | rewrite Hdestroyed; reflexivity].
Qed.

(** The retained collection is made of the objects whose flag is still set,
    in their order. *)
Lemma alive_objects_kept (objects : list SceneObject.t) (g : GLState) :
  alive_objects objects g
  = map (fun k => objects !!! k) (kept_indices (collision_pass objects)).
Proof.
  unfold alive_objects, kept_indices.
  destruct (collision_pass_marks objects) as [Hlen _]. rewrite Hlen.
  apply sweep_lists.
Qed.

End Sweep.

Lemma kept_indices_elem (remains : list bool) (k : nat) :
  k ∈ kept_indices remains <-> (k < length remains)%nat /\ remains !!! k = true.
Proof.
  unfold kept_indices. rewrite list_elem_of_filter, elem_of_seq. intuition lia.
Qed.


(** Either row [i] is examined, or [i] is an enemy hit from an earlier row. *)
Lemma examined_or_hit (objects : list SceneObject.t) (i : nat) :
  examined objects i
  \/ (SceneObject.IsSnowBall (objects !!! i) = false
      /\ exists k, (k < i)%nat /\ hit objects k i = true).
Proof.
  unfold examined.
  destruct (SceneObject.IsSnowBall (objects !!! i)); [left; left; reflexivity |].
  assert (Hbounded : forall n,
             (forall k, (k < n)%nat -> hit objects k i = false)
             \/ exists k, (k < n)%nat /\ hit objects k i = true).
  { induction n as [| n [IH | (k & Hk & Hhit)]].
    - left. intros k Hk. lia.
    - destruct (hit objects n i) eqn:Hhit.
      + right. exists n. split; [lia | exact Hhit].
      + left. intros k Hk. destruct (decide (k = n)) as [-> | Hne];
          [exact Hhit | apply IH; lia].
    - right. exists k. split; [lia | exact Hhit]. }
  destruct (Hbounded i) as [Hnone | Hsome]; [left; right; exact Hnone | right].
  split; [reflexivity | exact Hsome].
Qed.

(** The first object of a hit pair is marked in every case. *)
Lemma hit_first_marked (objects : list SceneObject.t) (i j : nat) :
  (i < j < length objects)%nat -> hit objects i j = true ->
  collision_pass objects !!! i = false.
Proof.
  intros Hij Hhit.
  destruct (collision_pass_marks objects) as [_ Hmarks].
  apply Hmarks; [lia |].
  destruct (examined_or_hit objects i) as [Hex | (Henemy & k & Hk & Hhitk)].
  - exists i, j. tauto.
  - exists k, i. split; [lia | split; [tauto |]].
    split; [eapply hit_enemy_examined; eassumption | exact Hhitk].
Qed.

(** Both objects of a hit pair are marked when its row is examined. *)
Lemma hit_examined_marked (objects : list SceneObject.t) (i j : nat) :
  (i < j < length objects)%nat -> hit objects i j = true -> examined objects i ->
  collision_pass objects !!! i = false /\ collision_pass objects !!! j = false.
Proof.
  intros Hij Hhit Hex.
  destruct (collision_pass_marks objects) as [_ Hmarks].
  split; (apply Hmarks; [lia |]); exists i, j; tauto.
Qed.

(** ** Running the pass on the scene *)

Lemma collide_pair_hit (objects : list SceneObject.t) (i j : nat) (remains : list bool) :
  hit objects i j = true ->
  collide_pair objects i j remains = <[i := false]> (<[j := false]> remains).
Proof.
  unfold hit, collide_pair. intros Hhit.
  apply andb_prop in Hhit as [-> ->]. reflexivity.
Qed.

Lemma collide_pair_miss (objects : list SceneObject.t) (i j : nat) (remains : list bool) :
  hit objects i j = false -> collide_pair objects i j remains = remains.
Proof.
  unfold hit, collide_pair. intros Hhit.
  destruct (SceneObject.IsIntersected _ _); [| reflexivity].
  cbn [andb] in Hhit. rewrite Hhit. reflexivity.
Qed.

Lemma collide_row_skip (objects : list SceneObject.t) (i : nat) (remains : list bool) :
  remains !!! i = false -> SceneObject.IsSnowBall (objects !!! i) = false ->
  collide_row objects i remains = remains.
Proof. unfold collide_row. intros -> ->. reflexivity. Qed.

Lemma collide_row_snowball (objects : list SceneObject.t) (i : nat) (remains : list bool) :
  SceneObject.IsSnowBall (objects !!! i) = true ->
  collide_row objects i remains
  = for_size_t (i + 1) (length objects) (collide_pair objects i) remains.
Proof. unfold collide_row. intros ->. rewrite andb_false_r. reflexivity. Qed.

Lemma IsIntersected_squares (a b : SceneObject.t) :
  0 < SceneObject.collider_radius_ a + SceneObject.collider_radius_ b ->
  Rsqr (glm.x (SceneObject.position_ a) - glm.x (SceneObject.position_ b))
  + Rsqr (glm.y (SceneObject.position_ a) - glm.y (SceneObject.position_ b))
  + Rsqr (glm.z (SceneObject.position_ a) - glm.z (SceneObject.position_ b))
  < Rsqr (SceneObject.collider_radius_ a + SceneObject.collider_radius_ b) ->
  SceneObject.IsIntersected a b = true.
Proof.
  intros Hradii Hsquares. apply IsIntersected_distance.
  unfold euclidean_distance, SceneObject.GetPosition, SceneObject.GetColliderRadius.
  rewrite <- (sqrt_Rsqr (SceneObject.collider_radius_ a + SceneObject.collider_radius_ b))
    by lra.
  apply sqrt_lt_1_alt. split; [| exact Hsquares].
  pose proof (Rle_0_sqr (glm.x (SceneObject.position_ a) - glm.x (SceneObject.position_ b))).
  pose proof (Rle_0_sqr (glm.y (SceneObject.position_ a) - glm.y (SceneObject.position_ b))).
  pose proof (Rle_0_sqr (glm.z (SceneObject.position_ a) - glm.z (SceneObject.position_ b))).
  lra.
Qed.

Lemma snowball_at_fields (position : glm.vec3) :
  SceneObject.position_ (snowball_at position) = position
  /\ SceneObject.collider_radius_ (snowball_at position) = 75 / 100
  /\ SceneObject.IsSnowBall (snowball_at position) = true.
Proof.
  destruct (@SnowBall_new_fields example_extern position (glm.mkvec3 0 0 1) 0%nat)
    as (Hposition & _ & _ & Hradius & Hkind & _).
  unfold snowball_at. auto.
Qed.

Lemma enemy_at_fields (position : glm.vec3) :
  SceneObject.position_ (enemy_at position) = position
  /\ SceneObject.collider_radius_ (enemy_at position) = 2 * 1
  /\ SceneObject.IsSnowBall (enemy_at position) = false.
Proof.
  destruct (@CubeEnemy_new_fields example_extern position (glm.mkvec3 1 0 0) 0 1 0%nat)
    as (Hposition & _ & _ & Hradius & Hkind).
  unfold enemy_at. auto.
Qed.

Lemma snowball_enemy_one_apart (p q : glm.vec3) :
  Rsqr (glm.x p - glm.x q) + Rsqr (glm.y p - glm.y q) + Rsqr (glm.z p - glm.z q) = 1 ->
  SceneObject.IsIntersected (snowball_at p) (enemy_at q) = true.
Proof.
  intros Hone.
  destruct (snowball_at_fields p) as (Hps & Hrs & _).
  destruct (enemy_at_fields q) as (Hpe & Hre & _).
  apply IsIntersected_squares; rewrite ?Hps, ?Hrs, ?Hpe, ?Hre; [lra |].
  rewrite Hone. unfold Rsqr. lra.
Qed.

Lemma enemy_snowball_one_apart (p q : glm.vec3) :
  Rsqr (glm.x p - glm.x q) + Rsqr (glm.y p - glm.y q) + Rsqr (glm.z p - glm.z q) = 1 ->
  SceneObject.IsIntersected (enemy_at q) (snowball_at p) = true.
Proof.
  intros Hone. rewrite IsIntersected_comm.
  apply snowball_enemy_one_apart, Hone.
Qed.

Ltac scene_size := change (length two_snowballs_one_enemy) with 3%nat; lia.

Lemma scene_kinds :
  SceneObject.IsSnowBall (two_snowballs_one_enemy !!! 0%nat) = true
  /\ SceneObject.IsSnowBall (two_snowballs_one_enemy !!! 1%nat) = false
  /\ SceneObject.IsSnowBall (two_snowballs_one_enemy !!! 2%nat) = true.
Proof.
  change (two_snowballs_one_enemy !!! 0%nat) with (snowball_at (glm.mkvec3 0 0 0)).
  change (two_snowballs_one_enemy !!! 1%nat) with (enemy_at (glm.mkvec3 1 0 0)).
  change (two_snowballs_one_enemy !!! 2%nat) with (snowball_at (glm.mkvec3 2 0 0)).
  split; [apply snowball_at_fields | split; [apply enemy_at_fields | apply snowball_at_fields]].
Qed.

Lemma scene_intersections :
  SceneObject.IsIntersected (two_snowballs_one_enemy !!! 0%nat)
                            (two_snowballs_one_enemy !!! 1%nat) = true
  /\ SceneObject.IsIntersected (two_snowballs_one_enemy !!! 1%nat)
                               (two_snowballs_one_enemy !!! 2%nat) = true.
Proof.
  change (two_snowballs_one_enemy !!! 0%nat) with (snowball_at (glm.mkvec3 0 0 0)).
  change (two_snowballs_one_enemy !!! 1%nat) with (enemy_at (glm.mkvec3 1 0 0)).
  change (two_snowballs_one_enemy !!! 2%nat) with (snowball_at (glm.mkvec3 2 0 0)).
  split.
  - apply (snowball_enemy_one_apart (glm.mkvec3 0 0 0) (glm.mkvec3 1 0 0)).
    cbn [glm.x glm.y glm.z]. unfold Rsqr. lra.
  - apply (enemy_snowball_one_apart (glm.mkvec3 2 0 0) (glm.mkvec3 1 0 0)).
    cbn [glm.x glm.y glm.z]. unfold Rsqr. lra.
Qed.

Lemma scene_hits :
  hit two_snowballs_one_enemy 0 1 = true
  /\ hit two_snowballs_one_enemy 0 2 = false
  /\ hit two_snowballs_one_enemy 1 2 = true.
Proof.
  destruct scene_kinds as (Hk0 & Hk1 & Hk2).
  destruct scene_intersections as (Hi01 & Hi12).
  unfold hit. rewrite Hk0, Hk1, Hk2, Hi01, Hi12. cbn [xorb andb].
  repeat split; try reflexivity. apply andb_false_r.
Qed.

(** The pass on the scene: the first snowball and the enemy are marked, the
    row of the marked enemy is skipped, the second snowball stays. *)
Lemma collision_pass_scene :
  collision_pass two_snowballs_one_enemy = [false; false; true].
Proof.
  destruct scene_kinds as (Hk0 & Hk1 & Hk2).
  destruct scene_hits as (Hh01 & Hh02 & Hh12).
  unfold collision_pass, for_size_t.
  change (length two_snowballs_one_enemy) with 3%nat.
  cbn [Nat.sub iter_size_t replicate].
  rewrite (collide_row_snowball _ 0) by exact Hk0.
  unfold for_size_t. change (length two_snowballs_one_enemy) with 3%nat.
  cbn [Nat.sub Nat.add iter_size_t].
  rewrite (collide_pair_hit _ 0 1) by exact Hh01.
  rewrite (collide_pair_miss _ 0 2) by exact Hh02.
  change (<[0%nat := false]> (<[1%nat := false]> [true; true; true]))
    with [false; false; true].
  rewrite (collide_row_skip _ 1) by (reflexivity || exact Hk1).
  rewrite (collide_row_snowball _ 2) by exact Hk2.
  reflexivity.
Qed.

Lemma collide_row_unmarked (objects : list SceneObject.t) (i : nat) (remains : list bool) :
  remains !!! i = true ->
  collide_row objects i remains
  = for_size_t (i + 1) (length objects) (collide_pair objects i) remains.
Proof. unfold collide_row. intros ->. reflexivity. Qed.

Lemma enemy_first_kinds :
  SceneObject.IsSnowBall (enemy_two_snowballs !!! 0%nat) = false
  /\ SceneObject.IsSnowBall (enemy_two_snowballs !!! 1%nat) = true
  /\ SceneObject.IsSnowBall (enemy_two_snowballs !!! 2%nat) = true.
Proof.
  change (enemy_two_snowballs !!! 0%nat) with (enemy_at (glm.mkvec3 0 0 0)).
  change (enemy_two_snowballs !!! 1%nat) with (snowball_at (glm.mkvec3 1 0 0)).
  change (enemy_two_snowballs !!! 2%nat) with (snowball_at (glm.mkvec3 (-1) 0 0)).
  split; [apply enemy_at_fields | split; apply snowball_at_fields].
Qed.

Lemma enemy_first_hits :
  hit enemy_two_snowballs 0 1 = true
  /\ hit enemy_two_snowballs 0 2 = true
  /\ hit enemy_two_snowballs 1 2 = false.
Proof.
  destruct enemy_first_kinds as (Hk0 & Hk1 & Hk2).
  unfold hit. rewrite Hk0, Hk1, Hk2. cbn [xorb]. rewrite !andb_true_r.
  change (enemy_two_snowballs !!! 0%nat) with (enemy_at (glm.mkvec3 0 0 0)).
  change (enemy_two_snowballs !!! 1%nat) with (snowball_at (glm.mkvec3 1 0 0)).
  change (enemy_two_snowballs !!! 2%nat) with (snowball_at (glm.mkvec3 (-1) 0 0)).
  split; [| split; [| apply andb_false_r]].
  - apply (enemy_snowball_one_apart (glm.mkvec3 1 0 0) (glm.mkvec3 0 0 0)).
    cbn [glm.x glm.y glm.z]. unfold Rsqr. lra.
  - apply (enemy_snowball_one_apart (glm.mkvec3 (-1) 0 0) (glm.mkvec3 0 0 0)).
    cbn [glm.x glm.y glm.z]. unfold Rsqr. lra.
Qed.

(** The row of the enemy that comes first: the pair with the first snowball
    marks the enemy, and the pair with the second snowball is run all the
    same. *)
Lemma collide_row_enemy_first :
  collide_row enemy_two_snowballs 0 [true; true; true]
  = collide_pair enemy_two_snowballs 0 2
      (collide_pair enemy_two_snowballs 0 1 [true; true; true]).
Proof.
  rewrite (collide_row_unmarked _ 0) by reflexivity.
  unfold for_size_t. change (length enemy_two_snowballs) with 3%nat.
  reflexivity.
Qed.

Lemma collision_pass_enemy_first :
  collision_pass enemy_two_snowballs = [false; false; false].
Proof.
  destruct enemy_first_kinds as (Hk0 & Hk1 & Hk2).
  destruct enemy_first_hits as (Hh01 & Hh02 & Hh12).
  unfold collision_pass, for_size_t.
  change (length enemy_two_snowballs) with 3%nat.
  cbn [Nat.sub iter_size_t replicate].
  rewrite collide_row_enemy_first.
  rewrite (collide_pair_hit _ 0 1) by exact Hh01.
  rewrite (collide_pair_hit _ 0 2) by exact Hh02.
  change (<[0%nat := false]> (<[2%nat := false]>
            (<[0%nat := false]> (<[1%nat := false]> [true; true; true]))))
    with [false; false; false].
  rewrite (collide_row_snowball _ 1) by exact Hk1.
  unfold for_size_t. change (length enemy_two_snowballs) with 3%nat.
  cbn [Nat.sub Nat.add iter_size_t].
  rewrite (collide_pair_miss _ 1 2) by exact Hh12.
  rewrite (collide_row_snowball _ 2) by exact Hk2.
  reflexivity.
Qed.

(** ** The collision policy *)

Section Policy.
Context `{Extern}.


(** C6, as the code has it.  The skip test is made once per row, before
    the inner loop, and the inner loop does not read the flags.  A row whose
    object is already marked when the row starts, hence marked as second
    operand of a pair of an earlier row, runs its inner loop exactly when
    the object is a snowball; a row whose object is not marked when it
    starts runs its inner loop to the end, and every pair that intersects
    with exactly one snowball marks both objects whatever their flags.  So a
    snowball, marked or not, marks with itself every later enemy it
    intersects; an enemy [e] marked from an earlier row is skipped as first
    operand: a later snowball that hits no pair but the one with [e] keeps
    its flag, while [e] stays marked; and an enemy that no earlier row has
    marked is marked with every later snowball it intersects: once the first
    of these pairs has marked it, it is still the first operand of the
    others. *)
Theorem marked_row_rule (objects : list SceneObject.t) :
  (forall i remains,
     remains !!! i = false ->
     collide_row objects i remains
     = if SceneObject.IsSnowBall (objects !!! i)
       then for_size_t (i + 1) (length objects) (collide_pair objects i) remains
       else remains)
  /\ (forall p e,
        (p < e < length objects)%nat ->
        SceneObject.IsSnowBall (objects !!! p) = true ->
        hit objects p e = true ->
        collision_pass objects !!! p = false /\ collision_pass objects !!! e = false)
  /\ (forall e p,
        (e < p < length objects)%nat ->
        SceneObject.IsSnowBall (objects !!! e) = false ->
        (exists k, (k < e)%nat /\ hit objects k e = true) ->
        (forall a b, (a < b < length objects)%nat -> (p = a \/ p = b) ->
                     hit objects a b = true -> a = e) ->
        collision_pass objects !!! e = false /\ collision_pass objects !!! p = true)
  /\ (forall i remains,
        remains !!! i = true ->
        collide_row objects i remains
        = for_size_t (i + 1) (length objects) (collide_pair objects i) remains)
  /\ (forall i j remains,
        hit objects i j = true ->
        collide_pair objects i j remains = <[i := false]> (<[j := false]> remains))
  /\ (forall e p,
        (e < p < length objects)%nat ->
        SceneObject.IsSnowBall (objects !!! e) = false ->
        (forall k, (k < e)%nat -> hit objects k e = false) ->
        hit objects e p = true ->
        collision_pass objects !!! e = false /\ collision_pass objects !!! p = false)
  /\ (forall m,
        (m < length objects)%nat ->
        (collision_pass objects !!! m = false <->
         exists a b, (a < b < length objects)%nat /\ (m = a \/ m = b)
                     /\ (SceneObject.IsSnowBall (objects !!! a) = true
                         \/ forall k, (k < a)%nat -> hit objects k a = false)
                     /\ hit objects a b = true)).
Proof.
  split; [| split; [| split; [| split; [| split; [| split]]]]].
  - intros i remains Hmarked. unfold collide_row. rewrite Hmarked.
    destruct (SceneObject.IsSnowBall (objects !!! i)); reflexivity.
  - intros p e Hpe Hsnow Hhit.
    apply hit_examined_marked; [exact Hpe | exact Hhit | left; exact Hsnow].
  - intros e p Hep Henemy (k & Hk & Hhitk) Honly.
    destruct (collision_pass_marks objects) as [_ Hmarks]. split.
    + apply Hmarks; [lia |]. exists k, e. split; [lia | split; [tauto |]].
      split; [eapply hit_enemy_examined; eassumption | exact Hhitk].
    + destruct (collision_pass objects !!! p) eqn:Hflag; [reflexivity |].
      apply Hmarks in Hflag as (a & b & Hab & Hpab & Hex & Hhit); [| lia].
      pose proof (Honly a b Hab Hpab Hhit) as ->.
      destruct Hex as [Hsnow | Hnone]; [congruence |].
      rewrite (Hnone k Hk) in Hhitk. discriminate.
  - intros i remains Hset. unfold collide_row. rewrite Hset. reflexivity.
  - intros i j remains Hhit. unfold hit in Hhit. unfold collide_pair.
    apply andb_prop in Hhit as [-> ->]. reflexivity.
  - intros e p Hep _ Hnone Hhit.
    apply hit_examined_marked; [exact Hep | exact Hhit | right; exact Hnone].
  - intros m Hm. destruct (collision_pass_marks objects) as [_ Hmarks].
    apply Hmarks, Hm.
Qed.

End Policy.



(** The rule on the two scenes: the row of the first snowball marks the
    enemy; the enemy, marked, is skipped, and the second snowball keeps its
    flag; the enemy that comes first is marked with its second snowball. *)
Lemma marked_row_rule_witness :
  (collision_pass two_snowballs_one_enemy !!! 0%nat = false
   /\ collision_pass two_snowballs_one_enemy !!! 1%nat = false)
  /\ (collision_pass two_snowballs_one_enemy !!! 1%nat = false
      /\ collision_pass two_snowballs_one_enemy !!! 2%nat = true)
  /\ (collision_pass enemy_two_snowballs !!! 0%nat = false
      /\ collision_pass enemy_two_snowballs !!! 2%nat = false).
Proof.
  destruct scene_kinds as (Hk0 & Hk1 & Hk2).
  destruct scene_hits as (Hh01 & Hh02 & Hh12).
  destruct (marked_row_rule two_snowballs_one_enemy) as (_ & Hsnowball & Henemy & _).
  destruct (marked_row_rule enemy_two_snowballs) as (_ & _ & _ & _ & _ & Hfirst & _).
  split; [| split].
  - apply Hsnowball; [scene_size | exact Hk0 | exact Hh01].
  - apply Henemy; [scene_size | exact Hk1 | exists 0%nat; split; [lia | exact Hh01] |].
    change (length two_snowballs_one_enemy) with 3%nat.
    intros a b Hab Hp Hhit. destruct Hp as [Ha | Hb]; [lia | subst b].
    destruct a as [| [| a]]; [congruence | reflexivity | lia].
  - apply Hfirst.
    + change (length enemy_two_snowballs) with 3%nat. lia.
    + apply enemy_first_kinds.
    + intros k Hk. lia.
    + apply enemy_first_hits.
Defined.

(** C6 fails as stated: in the collection of an enemy followed by two
    snowballs that both intersect it, the pair of the enemy and the first
    snowball marks the enemy; the enemy is not a snowball, yet it is still
    checked as first operand of the pair with the second snowball, which
    that pair marks: no other pair of the second snowball intersects with
    exactly one snowball, and the pass marks all three objects. *)
Lemma marked_enemy_still_first_operand :
  SceneObject.IsSnowBall (enemy_two_snowballs !!! 0%nat) = false
  /\ collide_pair enemy_two_snowballs 0 1 [true; true; true] = [false; false; true]
  /\ collide_row enemy_two_snowballs 0 [true; true; true]
     = collide_pair enemy_two_snowballs 0 2
         (collide_pair enemy_two_snowballs 0 1 [true; true; true])
  /\ collide_pair enemy_two_snowballs 0 2 [false; false; true] = [false; false; false]
  /\ hit enemy_two_snowballs 1 2 = false
  /\ collision_pass enemy_two_snowballs = [false; false; false]
  /\ collision_pass enemy_two_snowballs !!! 2%nat = false.
Proof.
  destruct enemy_first_kinds as (Hk0 & _).
  destruct enemy_first_hits as (Hh01 & Hh02 & Hh12).
  split; [exact Hk0 |].
  split; [rewrite (collide_pair_hit _ 0 1) by exact Hh01; reflexivity |].
  split; [exact collide_row_enemy_first |].
  split; [rewrite (collide_pair_hit _ 0 2) by exact Hh02; reflexivity |].
  split; [exact Hh12 |].
  split; [exact collision_pass_enemy_first |].
  rewrite collision_pass_enemy_first. reflexivity.
Qed.

(** ** The tick *)

Section Tick.
Context `{Extern}.

Lemma CreateSnowBall_released (p : Player.t) (w : World) :
  glfwGetMouseButton w = false ->
  Player.CreateSnowBall p w
  = (None, Player.look p (fst (cursor w)) (snd (cursor w)),
     glfwSetCursorPos (IZR (1024 / 2)) (IZR (768 / 2)) w).
Proof.
  intros Hreleased. unfold Player.CreateSnowBall, glfwGetCursorPos.
  destruct (cursor w) as [xpos ypos] eqn:Hcursor.
  unfold glfwGetMouseButton in *. cbn [glfwSetCursorPos mouse_button_left].
  rewrite Hreleased. reflexivity.
Qed.

Lemma CreateEnemy_waiting (c : EnemyCreator.t) (position : glm.vec3) (w : World) :
  clock w (clock_reads w) <= EnemyCreator.next_creation_time_ c ->
  EnemyCreator.CreateEnemy c position w = (None, c, snd (glfwGetTime w)).
Proof.
  intros Hwait. unfold EnemyCreator.CreateEnemy, glfwGetTime. cbn [snd].
  apply Rleb_true in Hwait. rewrite Hwait. reflexivity.
Qed.

(** C8: a tick that starts from an empty collection, with the button
    released and the delay of the spawner not elapsed at the reading of the
    clock that [CreateEnemy] takes (the second one of the tick), leaves the
    collection empty, destroys no object and leaves the graphics state as it
    was. *)
Theorem tick_empty_idle (game : Game) :
  objects game = [] ->
  glfwGetMouseButton (world game) = false ->
  clock (world game) (S (clock_reads (world game)))
  <= EnemyCreator.next_creation_time_ (enemy_creator game) ->
  objects (fst (tick game)) = []
  /\ snd (tick game) = []
  /\ gl (world (fst (tick game))) = gl (world game).
Proof.
  intros Hempty Hreleased Hwait. unfold tick.
  rewrite Hempty. cbn [glfwGetTime move_objects map].
  unfold sweep, collision_pass, for_size_t.
  cbn [length Nat.sub iter_size_t replicate gl set_gl].
  rewrite CreateSnowBall_released by exact Hreleased.
  rewrite CreateEnemy_waiting by exact Hwait.
  cbn [push_back_if fst snd objects world gl glfwGetTime glfwSetCursorPos].
  repeat split; reflexivity.
Qed.

End Tick.

(** ** Throwing snowballs *)

Section Throw.
Context `{Extern}.

Lemma CreateSnowBall_fires (p : Player.t) (w : World) :
  glfwGetMouseButton w = true ->
  Player.next_creation_time_ p < clock w (clock_reads w) ->
  Player.CreateSnowBall p w
  = (Some (fst (thrown p w)),
     Player.set_next_creation_time (looking p w)
       (clock w (S (clock_reads w)) + Player.timedelay_ p),
     mkWorld (snd (thrown p w)) (clock w) (S (S (clock_reads w)))
             (IZR (1024 / 2), IZR (768 / 2)) (mouse_button_left w)).
Proof.
  intros Hpressed Hlate.
  unfold Player.CreateSnowBall, thrown, aim, looking, glfwGetCursorPos.
  destruct (cursor w) as [xpos ypos] eqn:Hcursor.
  unfold glfwGetMouseButton in *.
  cbn [glfwSetCursorPos glfwGetTime mouse_button_left clock clock_reads gl fst snd
       Player.look Player.next_creation_time_ Player.timedelay_ Player.position_
       Player.camera Player.set_next_creation_time].
  rewrite Hpressed. apply Rgtb_true in Hlate. rewrite Hlate.
  destruct (SnowBall.new _ _ (gl w)) as [snowball g]. reflexivity.
Qed.

Lemma CreateSnowBall_holds (p : Player.t) (w : World) :
  glfwGetMouseButton w = true ->
  clock w (clock_reads w) <= Player.next_creation_time_ p ->
  Player.CreateSnowBall p w
  = (None, looking p w,
     mkWorld (gl w) (clock w) (S (clock_reads w))
             (IZR (1024 / 2), IZR (768 / 2)) (mouse_button_left w)).
Proof.
  intros Hpressed Hearly.
  unfold Player.CreateSnowBall, looking, glfwGetCursorPos.
  destruct (cursor w) as [xpos ypos] eqn:Hcursor.
  unfold glfwGetMouseButton in *.
  cbn [glfwSetCursorPos glfwGetTime mouse_button_left clock clock_reads gl fst snd
       Player.look Player.next_creation_time_].
  rewrite Hpressed. apply Rgtb_false in Hearly. rewrite Hearly. reflexivity.
Qed.

(** C3, as the code has it: [CreateSnowBall] makes a snowball exactly when
    the button is pressed and the clock reads strictly more than the
    recorded next creation time.  The snowball is one, created at
    [position + Direction() * 1.5] with direction [Direction()], for the
    direction of the camera after the pointer has been read, and the
    recorded time becomes the next reading of the clock plus [timedelay].
    In every other case nothing is created and the recorded time stays.
    After a throw no call makes a snowball as long as the clock reads at
    most the recorded time, that is for [timedelay] seconds. *)
Theorem CreateSnowBall_rate_limited (p : Player.t) (w : World) :
  let result := Player.CreateSnowBall p w in
  let now := clock w (clock_reads w) in
  ((exists snowball, fst (fst result) = Some snowball)
   <-> glfwGetMouseButton w = true /\ Player.next_creation_time_ p < now)
  /\ (glfwGetMouseButton w = true -> Player.next_creation_time_ p < now ->
      fst (fst result) = Some (fst (thrown p w))
      /\ SceneObject.position_ (fst (thrown p w))
         = glm.add3 (Player.position_ p) (glm.scale3 (aim p w) (15 / 10))
      /\ SceneObject.direction_ (fst (thrown p w)) = aim p w
      /\ SceneObject.IsSnowBall (fst (thrown p w)) = true
      /\ Player.next_creation_time_ (snd (fst result))
         = clock w (S (clock_reads w)) + Player.timedelay_ p
      /\ forall w',
           clock w' (clock_reads w') <= clock w (S (clock_reads w)) + Player.timedelay_ p ->
           fst (fst (Player.CreateSnowBall (snd (fst result)) w')) = None)
  /\ (~ (glfwGetMouseButton w = true /\ Player.next_creation_time_ p < now) ->
      fst (fst result) = None
      /\ snd (fst result) = looking p w
      /\ gl (snd result) = gl w).
Proof.
  intros result now. subst result now.
  destruct (glfwGetMouseButton w) eqn:Hbutton.
  - destruct (Rlt_dec (Player.next_creation_time_ p) (clock w (clock_reads w)))
      as [Hlate | Hearly].
    + rewrite (CreateSnowBall_fires p w Hbutton Hlate). cbn [fst snd].
      split; [split; [intros _; split; [reflexivity | exact Hlate] |
                      intros _; eexists; reflexivity] |].
      split; [| intros Hnot; exfalso; apply Hnot; split; [reflexivity | exact Hlate]].
      intros _ _.
      destruct (SnowBall_new_fields
                  (glm.add3 (Player.position_ p) (glm.scale3 (aim p w) (15 / 10)))
                  (aim p w) (gl w)) as (Hposition & Hdirection & _ & _ & Hkind & _).
      split; [reflexivity |]. split; [exact Hposition |].
      split; [exact Hdirection |]. split; [exact Hkind |].
      split; [reflexivity |].
      intros w' Hsoon.
      destruct (glfwGetMouseButton w') eqn:Hbutton'.
      * rewrite CreateSnowBall_holds; [reflexivity | exact Hbutton' | exact Hsoon].
      * rewrite CreateSnowBall_released by exact Hbutton'. reflexivity.
    + assert (Hle : clock w (clock_reads w) <= Player.next_creation_time_ p) by lra.
      rewrite (CreateSnowBall_holds p w Hbutton Hle). cbn [fst snd gl].
      split; [split; [intros [snowball Hsome]; discriminate |
                      intros [_ Hlate]; lra] |].
      split; [intros _ Hlate; lra | intros _; repeat split; reflexivity].
  - rewrite (CreateSnowBall_released p w Hbutton).
    cbn [fst snd gl glfwSetCursorPos].
    split; [split; [intros [snowball Hsome]; discriminate |
                    intros [Hpressed _]; discriminate] |].
    split; [intros Hpressed; discriminate | intros _; repeat split; reflexivity].
Qed.

End Throw.

(** ** The button held down *)

Lemma held_fire_start_eq :
  held_fire_start
  = (Player.mk (Camera.mk 0 0 45) (glm.splat3 0) 1 (5 / 1000) (2 / 10) (1 / 2),
     @mkWorld example_extern 0%nat held_fire_clock 1%nat (IZR 512, IZR 384) true).
Proof. reflexivity. Qed.

Lemma first_call_eq :
  first_call
  = (Some (fst (thrown (fst held_fire_start) (snd held_fire_start))),
     Player.set_next_creation_time
       (looking (fst held_fire_start) (snd held_fire_start)) (1 + 2 / 10),
     @mkWorld example_extern
       (snd (thrown (fst held_fire_start) (snd held_fire_start)))
       held_fire_clock 3%nat (IZR (1024 / 2), IZR (768 / 2)) true).
Proof.
  unfold first_call.
  rewrite CreateSnowBall_fires.
  - rewrite held_fire_start_eq. reflexivity.
  - rewrite held_fire_start_eq. reflexivity.
  - rewrite held_fire_start_eq.
    cbn [fst snd Player.next_creation_time_ clock clock_reads].
    unfold held_fire_clock. cbn [Nat.ltb Nat.leb]. lra.
Qed.

(** The theorem on the first call: a snowball is thrown and the next
    creation time is recorded. *)
Lemma CreateSnowBall_rate_limited_witness :
  fst (fst first_call) = Some (fst (thrown (fst held_fire_start) (snd held_fire_start)))
  /\ Player.next_creation_time_ (snd (fst first_call)) = 1 + 2 / 10.
Proof.
  destruct (@CreateSnowBall_rate_limited example_extern
              (fst held_fire_start) (snd held_fire_start))
    as (_ & Hfires & _).
  destruct Hfires as (Hthrown & _ & _ & _ & Hnext & _).
  - reflexivity.
  - cbn [held_fire_start Player.new glfwGetTime fst snd Player.next_creation_time_
         clock clock_reads].
    unfold held_fire_clock. cbn [Nat.ltb Nat.leb]. lra.
  - split; [exact Hthrown |]. unfold first_call. rewrite Hnext. reflexivity.
Defined.

(** C3 fails as stated: the button is held; a snowball is thrown when the
    clock reads 1 and the next creation time becomes [1 + timedelay]; at
    the next call the clock reads 1.2, the time elapsed since the throw
    equals [timedelay = 0.2], and no snowball is made. *)
Lemma held_fire_at_exact_delay_no_snowball :
  (exists snowball, fst (fst first_call) = Some snowball)
  /\ Player.next_creation_time_ (snd (fst first_call))
     = 1 + Player.timedelay_ (snd (fst first_call))
  /\ glfwGetMouseButton (snd first_call) = true
  /\ clock (snd first_call) (clock_reads (snd first_call)) - 1
     >= Player.timedelay_ (snd (fst first_call))
  /\ fst (fst second_call) = None.
Proof.
  unfold second_call. rewrite first_call_eq. cbn [fst snd].
  split; [eexists; reflexivity |].
  split; [reflexivity |].
  split; [reflexivity |].
  split.
  - cbn [clock clock_reads Player.timedelay_ Player.set_next_creation_time].
    rewrite held_fire_start_eq.
    cbn [fst snd looking Player.look Player.timedelay_].
    unfold held_fire_clock. cbn [Nat.ltb Nat.leb]. lra.
  - rewrite CreateSnowBall_holds; [reflexivity | reflexivity |].
    cbn [clock clock_reads Player.next_creation_time_ Player.set_next_creation_time].
    unfold held_fire_clock. cbn [Nat.ltb Nat.leb]. lra.
Qed.

(** ** Spawning enemies *)

Section Spawn.
Context `{Extern}.

Lemma draw_keeps (dist : EnemyCreator.t -> R * R) (c : EnemyCreator.t) :
  EnemyCreator.radius_ (snd (EnemyCreator.draw dist c)) = EnemyCreator.radius_ c
  /\ EnemyCreator.angle_ (snd (EnemyCreator.draw dist c)) = EnemyCreator.angle_ c
  /\ EnemyCreator.size_ (snd (EnemyCreator.draw dist c)) = EnemyCreator.size_ c.
Proof.
  unfold EnemyCreator.draw.
  destruct (uniform_real_distribution _ _ _) as [value rng]. cbn. auto.
Qed.


(** What [CreateEnemy] returns when it spawns. *)
Lemma CreateEnemy_spawned (c : EnemyCreator.t) (position : glm.vec3) (w : World) :
  EnemyCreator.next_creation_time_ c < clock w (clock_reads w) ->
  exists (c4 c5 : EnemyCreator.t) (rotation_axis : glm.vec3) (angle_rotation size : R)
         (g : GLState),
    EnemyCreator.radius_ c5 = EnemyCreator.radius_ c
    /\ fst (fst (EnemyCreator.CreateEnemy c position w))
       = Some (fst (CubeEnemy.new
                      (ring_point position (fst (EnemyCreator.draw EnemyCreator.radius_ c5))
                                  (fst (EnemyCreator.draw EnemyCreator.angle_ c4)))
                      rotation_axis angle_rotation size g)).
Proof.
  intros Hlate. unfold EnemyCreator.CreateEnemy, glfwGetTime.
  apply Rleb_false in Hlate. rewrite Hlate.
  set (c1 := EnemyCreator.set_next_creation_time c _).
  destruct (EnemyCreator.draw EnemyCreator.angle_ c1) as [angle_rotation c2] eqn:Hd1.
  destruct (EnemyCreator.draw EnemyCreator.angle_ c2) as [phi c3] eqn:Hd2.
  destruct (EnemyCreator.draw EnemyCreator.angle_ c3) as [theta c4] eqn:Hd3.
  destruct (EnemyCreator.draw EnemyCreator.angle_ c4) as [angle_position c5] eqn:Hd4.
  destruct (EnemyCreator.draw EnemyCreator.radius_ c5) as [radius c6] eqn:Hd5.
  destruct (EnemyCreator.draw EnemyCreator.size_ c6) as [size c7] eqn:Hd6.
  destruct (CubeEnemy.new _ _ _ _ _) as [new_obj g] eqn:Hnew.
  exists c4, c5, (glm.mkvec3 (cos phi * sin theta) (sin phi) (cos phi * cos theta)),
         angle_rotation, size, (gl w).
  split.
  - destruct (draw_keeps EnemyCreator.angle_ c1) as (Hr1 & _).
    destruct (draw_keeps EnemyCreator.angle_ c2) as (Hr2 & _).
    destruct (draw_keeps EnemyCreator.angle_ c3) as (Hr3 & _).
    destruct (draw_keeps EnemyCreator.angle_ c4) as (Hr4 & _).
    rewrite Hd1 in Hr1. rewrite Hd2 in Hr2. rewrite Hd3 in Hr3. rewrite Hd4 in Hr4.
    cbn [snd] in Hr1, Hr2, Hr3, Hr4.
    rewrite Hr4, Hr3, Hr2, Hr1. reflexivity.
  - rewrite Hd4, Hd5. cbn [fst]. unfold ring_point.
    change (Some new_obj) with (Some (fst (new_obj, g))).
    rewrite <- Hnew. reflexivity.
Qed.


End Spawn.

(** ** The idle program, the first spawn and two touching spheres *)

(** The first tick of the idle program. *)
Lemma tick_empty_idle_witness :
  objects (fst (tick idle_start)) = []
  /\ snd (tick idle_start) = []
  /\ gl (world (fst (tick idle_start))) = gl (world idle_start).
Proof.
  apply (@tick_empty_idle example_extern idle_start).
  - reflexivity.
  - reflexivity.
  - cbn. lra.
Defined.


(** The theorem on the snowball at the origin and the touching enemy. *)
Lemma IsIntersected_iff_distance_lt_radii_witness :
  SceneObject.IsIntersected (snowball_at (glm.mkvec3 0 0 0)) touching_enemy = false.
Proof.
  apply (IsIntersected_iff_distance_lt_radii (snowball_at (glm.mkvec3 0 0 0))
                                             touching_enemy).
  destruct (snowball_at_fields (glm.mkvec3 0 0 0)) as (Hps & Hrs & _).
  destruct (enemy_at_fields (glm.mkvec3 (275 / 100) 0 0)) as (Hpe & Hre & _).
  unfold touching_enemy, SceneObject.GetPosition, SceneObject.GetColliderRadius,
    euclidean_distance.
  rewrite Hps, Hrs, Hpe, Hre. cbn [glm.x glm.y glm.z].
  replace (Rsqr (0 - 275 / 100) + Rsqr (0 - 0) + Rsqr (0 - 0))
    with (Rsqr (275 / 100)) by (unfold Rsqr; lra).
  rewrite sqrt_Rsqr by lra. lra.
Defined.

(** * Further properties *)

(** ** Further properties of the sphere generator *)

Lemma mesh_all_sphere_grid (Pv Pn : glm.vec3 -> Prop) (Pu : glm.vec2 -> Prop)
    (radius : R) (sectorCount stackCount : Z) (position : glm.vec3) :
  (forall i j grid,
     (0 <= i <= stackCount)%Z -> (0 <= j <= sectorCount)%Z ->
     mesh_all Pv Pn Pu grid ->
     mesh_all Pv Pn Pu
       (sphere_point radius sectorCount stackCount
                     (glm.translate glm.identity position) i j grid)) ->
  (0 <= sectorCount)%Z -> (0 <= stackCount)%Z ->
  mesh_all Pv Pn Pu (sphere_grid radius sectorCount stackCount position).
Proof.
  intros Hpoint Hsectors Hstacks. unfold sphere_grid.
  apply (for_int_ind (fun _ grid => mesh_all Pv Pn Pu grid)); [lia | |].
  - repeat split; constructor.
  - intros i grid Hi Hgrid.
    apply (for_int_ind (fun _ grid' => mesh_all Pv Pn Pu grid')); [lia | exact Hgrid |].
    intros j grid' Hj Hgrid'. apply Hpoint; [lia | lia | exact Hgrid'].
Qed.

Lemma mesh_all_push (Pv Pn : glm.vec3 -> Prop) (Pu : glm.vec2 -> Prop)
    (m : Mesh) (v n : glm.vec3) (uv : glm.vec2) :
  Pv v -> Pn n -> Pu uv -> mesh_all Pv Pn Pu m -> mesh_all Pv Pn Pu (push_mesh m v n uv).
Proof.
  intros Hv Hn Hu (Hvs & Hns & Hus). unfold mesh_all, push_mesh.
  cbn [mesh_vertices mesh_normals mesh_uvs].
  repeat split; apply Forall_app; split; auto.
Qed.

Lemma appended_refl (Pv Pn : glm.vec3 -> Prop) (Pu : glm.vec2 -> Prop) (out : Mesh) :
  appended Pv Pn Pu out out.
Proof.
  exists [], [], []. rewrite !app_nil_r. repeat split; constructor.
Qed.

(** A triangle whose three indices are inside the grid appends grid
    elements. *)
Lemma appended_push_triangle (Pv Pn : glm.vec3 -> Prop) (Pu : glm.vec2 -> Prop)
    (grid out out' : Mesh) (size a b c : Z) :
  mesh_all Pv Pn Pu grid ->
  grown (mkMesh [] [] []) grid size ->
  (0 <= a < size)%Z -> (0 <= b < size)%Z -> (0 <= c < size)%Z ->
  appended Pv Pn Pu out out' ->
  appended Pv Pn Pu out (push_triangle grid out' a b c).
Proof.
  intros (Hgv & Hgn & Hgu) (Hsv & Hsn & Hsu) Ha Hb Hc
         (vs & ns & us & Hv & Hn & Hu & Hvs & Hns & Hus).
  cbn [mesh_vertices mesh_normals mesh_uvs length] in Hsv, Hsn, Hsu.
  unfold push_triangle.
  exists (vs ++ [mesh_vertices grid !!! Z.to_nat a; mesh_vertices grid !!! Z.to_nat b;
                 mesh_vertices grid !!! Z.to_nat c]),
         (ns ++ [mesh_normals grid !!! Z.to_nat a; mesh_normals grid !!! Z.to_nat b;
                 mesh_normals grid !!! Z.to_nat c]),
         (us ++ [mesh_uvs grid !!! Z.to_nat a; mesh_uvs grid !!! Z.to_nat b;
                 mesh_uvs grid !!! Z.to_nat c]).
  cbn [mesh_vertices mesh_normals mesh_uvs].
  rewrite Hv, Hn, Hu, <- !app_assoc.
  split; [reflexivity | split; [reflexivity | split; [reflexivity |]]].
  assert (Hin : forall (A : Type) (I : Inhabited A) (P : A -> Prop) (l : list A) (k : Z),
             Forall P l -> Z.of_nat (length l) = (0 + size)%Z -> (0 <= k < size)%Z ->
             P (l !!! Z.to_nat k)).
  { intros A I P l k Hall Hlen Hk. apply Forall_lookup_total_1; [exact Hall | lia]. }
  split; [| split]; apply Forall_app; (split; [assumption |]);
    (apply List.Forall_cons; [| apply List.Forall_cons; [| apply List.Forall_cons; [| apply List.Forall_nil]]]);
    eapply Hin; eassumption.
Qed.

Lemma appended_sphere_stack (Pv Pn : glm.vec3 -> Prop) (Pu : glm.vec2 -> Prop)
    (grid out out' : Mesh) (sectorCount stackCount i : Z) :
  mesh_all Pv Pn Pu grid ->
  grown (mkMesh [] [] []) grid ((stackCount + 1) * (sectorCount + 1)) ->
  (0 <= sectorCount)%Z -> (0 <= i < stackCount)%Z ->
  appended Pv Pn Pu out out' ->
  appended Pv Pn Pu out (sphere_stack grid sectorCount stackCount i out').
Proof.
  intros Hgrid Hsize Hsectors Hi Hout. unfold sphere_stack.
  apply (for_int_ind
           (fun j st =>
              fst (fst st) = (i * (sectorCount + 1) + j)%Z
              /\ snd (fst st) = (i * (sectorCount + 1) + sectorCount + 1 + j)%Z
              /\ appended Pv Pn Pu out (snd st)));
    [exact Hsectors | cbn [fst snd]; split; [lia | split; [lia | exact Hout]] |].
  intros j [[k1 k2] acc] Hj (Hk1 & Hk2 & Hacc). cbn [fst snd] in Hk1, Hk2, Hacc.
  unfold sphere_sector. cbn [fst snd].
  split; [lia | split; [lia |]].
  assert (Hrange : (0 <= k1 /\ k2 + 1 < (stackCount + 1) * (sectorCount + 1))%Z)
    by (subst k1 k2; apply sphere_indices_in_grid; lia).
  assert (Hk12 : (k1 < k2)%Z) by lia.
  destruct (negb (i =? 0)%Z), (negb (i =? stackCount - 1)%Z);
    repeat (eapply appended_push_triangle; [exact Hgrid | exact Hsize | lia | lia | lia |]);
    exact Hacc.
Qed.

(** Whatever holds of every entry of the grid holds of everything
    [createSphere] appends to its output: the indices it reads are inside
    the grid. *)
Lemma appended_createSphere (Pv Pn : glm.vec3 -> Prop) (Pu : glm.vec2 -> Prop)
    (radius : R) (sectorCount stackCount : Z) (out : Mesh) (position : glm.vec3) :
  mesh_all Pv Pn Pu (sphere_grid radius sectorCount stackCount position) ->
  (0 <= sectorCount)%Z -> (0 <= stackCount)%Z ->
  appended Pv Pn Pu out (createSphere radius sectorCount stackCount out position).
Proof.
  intros Hgrid Hsectors Hstacks. unfold createSphere.
  apply (for_int_ind (fun _ acc => appended Pv Pn Pu out acc));
    [exact Hstacks | apply appended_refl |].
  intros i acc Hi Hacc.
  apply appended_sphere_stack;
    [exact Hgrid | apply sphere_grid_size; assumption | exact Hsectors | exact Hi
     | exact Hacc].
Qed.

Lemma mesh_all_elements (m : Mesh) :
  mesh_all (fun v => v ∈ mesh_vertices m) (fun n => n ∈ mesh_normals m)
           (fun uv => uv ∈ mesh_uvs m) m.
Proof. repeat split; apply Forall_forall; auto. Qed.

(** X1: for non-negative counts, every index that the triangle loops of
    [createSphere] read is inside the grid of the first loops: each vertex,
    normal and texture coordinate appended to the output is an entry of that
    grid, which holds [(stackCount + 1) * (sectorCount + 1)] points. *)
Theorem createSphere_reads_inside_grid (radius : R) (sectorCount stackCount : Z)
    (out : Mesh) (position : glm.vec3) :
  (0 <= sectorCount)%Z -> (0 <= stackCount)%Z ->
  let grid := sphere_grid radius sectorCount stackCount position in
  Z.of_nat (length (mesh_vertices grid)) = ((stackCount + 1) * (sectorCount + 1))%Z
  /\ Z.of_nat (length (mesh_normals grid)) = ((stackCount + 1) * (sectorCount + 1))%Z
  /\ Z.of_nat (length (mesh_uvs grid)) = ((stackCount + 1) * (sectorCount + 1))%Z
  /\ appended (fun v => v ∈ mesh_vertices grid) (fun n => n ∈ mesh_normals grid)
              (fun uv => uv ∈ mesh_uvs grid)
              out (createSphere radius sectorCount stackCount out position).
Proof.
  intros Hsectors Hstacks grid.
  destruct (sphere_grid_size radius sectorCount stackCount position Hsectors Hstacks)
    as (Hv & Hn & Hu).
  cbn [mesh_vertices mesh_normals mesh_uvs length] in Hv, Hn, Hu.
  repeat split; [exact Hv | exact Hn | exact Hu |].
  apply appended_createSphere; [apply mesh_all_elements | assumption | assumption].
Qed.

Lemma createSphere_reads_inside_grid_witness :
  let grid := sphere_grid (75 / 100) 15 15 (glm.mkvec3 0 0 0) in
  Z.of_nat (length (mesh_vertices grid)) = 256%Z
  /\ appended (fun v => v ∈ mesh_vertices grid) (fun n => n ∈ mesh_normals grid)
              (fun uv => uv ∈ mesh_uvs grid)
              (mkMesh [] [] [])
              (createSphere (75 / 100) 15 15 (mkMesh [] [] []) (glm.mkvec3 0 0 0)).
Proof.
  destruct (createSphere_reads_inside_grid (75 / 100) 15 15 (mkMesh [] [] [])
                                           (glm.mkvec3 0 0 0))
    as (Hv & _ & _ & Happended); [lia | lia |].
  split; [exact Hv | exact Happended].
Defined.

Lemma unit_ratio (a b : Z) : (0 <= a <= b)%Z -> (1 <= b)%Z -> 0 <= IZR a / IZR b <= 1.
Proof.
  intros Ha Hb.
  assert (Hb' : 0 < IZR b) by (apply IZR_lt; lia).
  assert (Ha0 : 0 <= IZR a) by (apply IZR_le; lia).
  assert (Hab : IZR a <= IZR b) by (apply IZR_le; lia).
  split.
  - apply Rmult_le_pos; [exact Ha0 | left; apply Rinv_0_lt_compat, Hb'].
  - apply (Rmult_le_reg_r (IZR b)); [exact Hb' |].
    unfold Rdiv. rewrite Rmult_assoc, Rinv_l by lra. lra.
Qed.

(** The translation matrix applied to a homogeneous point: a point
    ([w = 1]) is moved by [position], a direction ([w = 0]) is not. *)
Lemma translate_mul_vec (position : glm.vec3) (a b c w : R) :
  glm.truncate (glm.mul_vec (glm.translate glm.identity position) (glm.mkvec4 a b c w))
  = glm.mkvec3 (a + glm.x position * w) (b + glm.y position * w)
               (c + glm.z position * w).
Proof.
  unfold glm.truncate, glm.mul_vec, glm.translate, glm.identity, glm.add4, glm.scale4.
  cbn [glm.x4 glm.y4 glm.z4 glm.w4 glm.col0 glm.col1 glm.col2 glm.col3].
  f_equal; ring.
Qed.

(** The point that the first loops compute for the angles [u] and [v] is on
    the sphere, and its normal has length one. *)
Lemma sphere_point_on_sphere (position : glm.vec3) (radius u v : R) :
  on_sphere position radius
    (glm.truncate
       (glm.mul_vec (glm.translate glm.identity position)
          (glm.mkvec4 (radius * cos u * cos v) (radius * cos u * sin v)
                      (radius * sin u) 1))).
Proof.
  rewrite translate_mul_vec. unfold on_sphere, Rsqr. cbn [glm.x glm.y glm.z].
  pose proof (sin2_cos2 u) as Hu. pose proof (sin2_cos2 v) as Hv.
  unfold Rsqr in Hu, Hv.
  set (cu := cos u) in *. set (su := sin u) in *.
  set (cv := cos v) in *. set (sv := sin v) in *.
  transitivity (radius * radius
                * (cu * cu * (sv * sv + cv * cv) + su * su)); [ring |].
  rewrite Hv. replace (cu * cu * 1 + su * su) with (su * su + cu * cu) by ring.
  rewrite Hu. ring.
Qed.

Lemma sphere_normal_unit (position : glm.vec3) (radius u v : R) :
  radius <> 0 ->
  glm.length
    (glm.truncate
       (glm.mul_vec (glm.translate glm.identity position)
          (glm.mkvec4 (radius * cos u * cos v * (1 / radius))
                      (radius * cos u * sin v * (1 / radius))
                      (radius * sin u * (1 / radius)) 0)))
  = 1.
Proof.
  intros Hradius. rewrite translate_mul_vec.
  unfold glm.length, glm.dot. cbn [glm.x glm.y glm.z].
  pose proof (sin2_cos2 u) as Hu. pose proof (sin2_cos2 v) as Hv.
  unfold Rsqr in Hu, Hv.
  set (cu := cos u) in *. set (su := sin u) in *.
  set (cv := cos v) in *. set (sv := sin v) in *.
  apply eq_trans with (sqrt 1); [f_equal | apply sqrt_1].
  transitivity (cu * cu * (sv * sv + cv * cv) + su * su); [field; exact Hradius |].
  rewrite Hv. lra.
Qed.

(** X2: for [sectorCount >= 1] and [stackCount >= 1] every texture
    coordinate that [createSphere] appends to its output lies in the unit
    square. *)
Theorem createSphere_uvs_in_unit_square (radius : R) (sectorCount stackCount : Z)
    (out : Mesh) (position : glm.vec3) :
  (1 <= sectorCount)%Z -> (1 <= stackCount)%Z ->
  appended (fun _ => True) (fun _ => True) in_unit_square
           out (createSphere radius sectorCount stackCount out position).
Proof.
  intros Hsectors Hstacks.
  apply appended_createSphere; [| lia | lia].
  apply mesh_all_sphere_grid; [| lia | lia].
  intros i j grid Hi Hj Hgrid. unfold sphere_point.
  apply mesh_all_push; [exact I | exact I | | exact Hgrid].
  split; cbn [glm.s glm.t]; apply unit_ratio; lia.
Qed.

Lemma createSphere_uvs_in_unit_square_witness :
  appended (fun _ => True) (fun _ => True) in_unit_square (mkMesh [] [] [])
           (createSphere (75 / 100) 15 15 (mkMesh [] [] []) (glm.mkvec3 0 0 0)).
Proof.
  apply (createSphere_uvs_in_unit_square (75 / 100) 15 15 (mkMesh [] [] [])
                                         (glm.mkvec3 0 0 0)); lia.
Defined.

(** X3: for non-negative counts every vertex that [createSphere] appends
    lies on the sphere of radius [radius] around [position], and, when the
    radius is not zero, every normal it appends has length one: the
    translation moves the vertices and leaves the normals alone. *)
Theorem createSphere_vertices_on_sphere (radius : R) (sectorCount stackCount : Z)
    (out : Mesh) (position : glm.vec3) :
  (0 <= sectorCount)%Z -> (0 <= stackCount)%Z ->
  appended (on_sphere position radius)
           (fun n => radius <> 0 -> glm.length n = 1)
           (fun _ => True)
           out (createSphere radius sectorCount stackCount out position).
Proof.
  intros Hsectors Hstacks.
  apply appended_createSphere; [| lia | lia].
  apply mesh_all_sphere_grid; [| lia | lia].
  intros i j grid Hi Hj Hgrid. unfold sphere_point.
  apply mesh_all_push; [| | exact I | exact Hgrid].
  - apply sphere_point_on_sphere.
  - apply sphere_normal_unit.
Qed.

Lemma createSphere_vertices_on_sphere_witness :
  appended (on_sphere (glm.mkvec3 1 2 3) (75 / 100))
           (fun n => 75 / 100 <> 0 -> glm.length n = 1)
           (fun _ => True)
           (mkMesh [] [] [])
           (createSphere (75 / 100) 15 15 (mkMesh [] [] []) (glm.mkvec3 1 2 3)).
Proof.
  apply (createSphere_vertices_on_sphere (75 / 100) 15 15 (mkMesh [] [] [])
                                         (glm.mkvec3 1 2 3)); lia.
Defined.

(** ** Further properties of the camera *)

Lemma dot_direction_direction (c : Camera.t) :
  glm.dot (Camera.CameraDirection c) (Camera.CameraDirection c) = 1.
Proof.
  pose proof (sin2_cos2 (Camera.horizontal_angle_ c)) as Hh.
  pose proof (sin2_cos2 (Camera.vertical_angle_ c)) as Hv.
  unfold Rsqr in Hh, Hv.
  unfold glm.dot, Camera.CameraDirection. cbn [glm.x glm.y glm.z].
  set (sh := sin (Camera.horizontal_angle_ c)) in *.
  set (ch := cos (Camera.horizontal_angle_ c)) in *.
  set (sv := sin (Camera.vertical_angle_ c)) in *.
  set (cv := cos (Camera.vertical_angle_ c)) in *.
  transitivity (cv * cv * (sh * sh + ch * ch) + sv * sv); [ring |].
  rewrite Hh. lra.
Qed.

(** X4: for all angles the view direction and the right vector have length
    one, the up vector is orthogonal to both, and its squared length is one
    minus the square of their dot product. *)
Theorem Camera_basis_lengths (c : Camera.t) :
  glm.length (Camera.CameraDirection c) = 1
  /\ glm.length (Camera.CameraRight c) = 1
  /\ glm.dot (Camera.CameraUp c) (Camera.CameraRight c) = 0
  /\ glm.dot (Camera.CameraUp c) (Camera.CameraDirection c) = 0
  /\ glm.dot (Camera.CameraUp c) (Camera.CameraUp c)
     = 1 - Rsqr (glm.dot (Camera.CameraDirection c) (Camera.CameraRight c)).
Proof.
  pose proof (dot_direction_direction c) as Hdd.
  pose proof (sin2_cos2 (Camera.horizontal_angle_ c - Camera.PI / 2)) as Hr.
  unfold Rsqr in Hr.
  assert (Hrr : glm.dot (Camera.CameraRight c) (Camera.CameraRight c) = 1).
  { unfold glm.dot, Camera.CameraRight. cbn [glm.x glm.y glm.z]. lra. }
  split; [unfold glm.length; rewrite Hdd; apply sqrt_1 |].
  split; [unfold glm.length; rewrite Hrr; apply sqrt_1 |].
  split; [unfold Camera.CameraUp, glm.dot, glm.cross; cbn [glm.x glm.y glm.z]; ring |].
  split; [unfold Camera.CameraUp, glm.dot, glm.cross; cbn [glm.x glm.y glm.z]; ring |].
  transitivity
    (glm.dot (Camera.CameraRight c) (Camera.CameraRight c)
     * glm.dot (Camera.CameraDirection c) (Camera.CameraDirection c)
     - Rsqr (glm.dot (Camera.CameraDirection c) (Camera.CameraRight c))).
  - unfold Camera.CameraUp, glm.dot, glm.cross, Rsqr. cbn [glm.x glm.y glm.z]. ring.
  - rewrite Hdd, Hrr. ring.
Qed.

(** ** Further properties of the collision pass and the sweep *)

Section SweepMore.
Context `{Extern}.

Lemma take_snoc_lookup_total (objects : list SceneObject.t) (i : nat) :
  (i < length objects)%nat ->
  take (S i) objects = take i objects ++ [objects !!! i].
Proof.
  intros Hi. apply take_S_r, list_lookup_lookup_total_lt, Hi.
Qed.

(** The loop of the sweep after [n] objects: what it has retained and what
    it has destroyed. *)
Lemma sweep_loop (objects : list SceneObject.t) (remains : list bool) (g : GLState)
    (n : nat) :
  (n <= length objects)%nat ->
  let st := for_size_t 0 n (sweep_step objects remains) ([], [], g) in
  fst (fst st) ++ snd (fst st) ≡ₚ take n objects
  /\ fst (fst st) `sublist_of` take n objects
  /\ snd (fst st) `sublist_of` take n objects
  /\ snd st = fold_left (fun g' o => SceneObject.destroy o g') (snd (fst st)) g.
Proof.
  intros Hn.
  apply (for_size_t_ind
           (fun i st =>
              fst (fst st) ++ snd (fst st) ≡ₚ take i objects
              /\ fst (fst st) `sublist_of` take i objects
              /\ snd (fst st) `sublist_of` take i objects
              /\ snd st
                 = fold_left (fun g' o => SceneObject.destroy o g') (snd (fst st)) g)).
  - lia.
  - cbn [fst snd take app fold_left]. repeat split; constructor.
  - intros i [[alive destroyed] g'] Hi (Hperm & Halive & Hdestroyed & Hg).
    cbn [fst snd] in Hperm, Halive, Hdestroyed, Hg.
    rewrite take_snoc_lookup_total by lia. unfold sweep_step.
    destruct (remains !!! i : bool); cbn [fst snd].
    + split; [| split; [| split]].
      * rewrite <- Hperm, <- !app_assoc.
        apply Permutation_app_head, Permutation_app_comm.
      * apply sublist_app; [exact Halive | reflexivity].
      * apply sublist_inserts_r, Hdestroyed.
      * exact Hg.
    + split; [| split; [| split]].
      * rewrite <- Hperm, app_assoc. reflexivity.
      * apply sublist_inserts_r, Halive.
      * apply sublist_app; [exact Hdestroyed | reflexivity].
      * rewrite fold_left_app. cbn [fold_left]. rewrite <- Hg. reflexivity.
Qed.


(** With every flag set the sweep keeps the whole collection. *)
Lemma sweep_all_retained (objects : list SceneObject.t) (remains : list bool)
    (g : GLState) :
  (forall i, (i < length objects)%nat -> remains !!! i = true) ->
  sweep objects remains g = (objects, [], g).
Proof.
  intros Hall. unfold sweep.
  assert (Hloop : for_size_t 0 (length objects) (sweep_step objects remains) ([], [], g)
                  = (take (length objects) objects, [], g)).
  { apply (for_size_t_ind (fun i st => st = (take i objects, [], g)));
      [lia | reflexivity |].
    intros i st Hi ->. unfold sweep_step. rewrite Hall by lia.
    rewrite take_snoc_lookup_total by lia. reflexivity. }
  rewrite take_ge in Hloop by lia. exact Hloop.
Qed.

End SweepMore.

(** Without a hit pair the pass marks nothing. *)
Lemma collision_pass_no_hit (objects : list SceneObject.t) :
  (forall a b, (a < b < length objects)%nat -> hit objects a b = false) ->
  forall m, (m < length objects)%nat -> collision_pass objects !!! m = true.
Proof.
  intros Hnone m Hm.
  destruct (collision_pass_marks objects) as [_ Hmarks].
  destruct (collision_pass objects !!! m) eqn:Hflag; [reflexivity |].
  apply Hmarks in Hflag as (a & b & Hab & _ & _ & Hhit); [| exact Hm].
  rewrite (Hnone a b Hab) in Hhit. discriminate.
Qed.

Lemma all_true_replicate (remains : list bool) (n : nat) :
  length remains = n ->
  (forall m, (m < n)%nat -> remains !!! m = true) ->
  remains = replicate n true.
Proof.
  intros Hlen Hall. apply list_eq. intros i.
  destruct (decide (i < n)%nat) as [Hi | Hi].
  - rewrite (list_lookup_lookup_total_lt remains i) by lia.
    rewrite (list_lookup_lookup_total_lt (replicate n true) i)
      by (rewrite length_replicate; lia).
    rewrite Hall by lia. rewrite lookup_total_replicate_2 by lia. reflexivity.
  - rewrite !lookup_ge_None_2; [reflexivity | rewrite length_replicate; lia | lia].
Qed.

Section PassMore.
Context `{Extern}.

(** X6: when no pair of the collection intersects with exactly one
    snowball, in particular when it holds only enemies or only snowballs,
    the pass marks nothing and the sweep returns the collection as it is,
    destroys nothing and leaves the graphics state alone. *)
Theorem pass_without_hit_keeps_all (objects : list SceneObject.t) (g : GLState) :
  (forall a b, (a < b < length objects)%nat -> hit objects a b = false) ->
  collision_pass objects = replicate (length objects) true
  /\ sweep objects (collision_pass objects) g = (objects, [], g)
  /\ alive_objects objects g = objects.
Proof.
  intros Hnone.
  pose proof (collision_pass_no_hit objects Hnone) as Hall.
  assert (Hsweep : sweep objects (collision_pass objects) g = (objects, [], g))
    by (apply sweep_all_retained, Hall).
  split; [| split; [exact Hsweep |]].
  - apply all_true_replicate; [apply collision_pass_marks | exact Hall].
  - unfold alive_objects. rewrite Hsweep. reflexivity.
Qed.

End PassMore.

Lemma map_lookup_total {A B : Type} `{Inhabited A, Inhabited B} (f : A -> B)
    (l : list A) (i : nat) :
  (i < length l)%nat -> map f l !!! i = f (l !!! i).
Proof.
  revert i. induction l as [| x l IH]; intros i Hi; cbn [length] in Hi; [lia |].
  destruct i as [| i]; [reflexivity |]. cbn [map]. apply IH. lia.
Qed.

(** The indices kept from [0 .. n-1] by a filter come in increasing order. *)
Lemma filter_seq_increasing (P : nat -> Prop) `{forall k, Decision (P k)} (n a b : nat) :
  (a < b < length (filter P (seq 0 n)))%nat ->
  (filter P (seq 0 n) !!! a < filter P (seq 0 n) !!! b)%nat.
Proof.
  revert a b. induction n as [| n IH]; intros a b Hab.
  - cbn in Hab. lia.
  - rewrite seq_S, filter_app in *. cbn [Nat.add] in *.
    rewrite length_app in Hab.
    assert (Hbelow : forall i, (i < length (filter P (seq 0 n)))%nat ->
                               (filter P (seq 0 n) !!! i < n)%nat).
    { intros i Hi.
      pose proof (list_elem_of_lookup_total_2 (filter P (seq 0 n)) i Hi) as Hin.
      apply list_elem_of_filter in Hin as [_ Hin]. apply elem_of_seq in Hin. lia. }
    destruct (decide (b < length (filter P (seq 0 n)))%nat) as [Hb | Hb].
    + rewrite !lookup_total_app_l by lia. apply IH. lia.
    + destruct (decide (P n)) as [Hp | Hp].
      * rewrite (filter_cons_True P n []) in * by exact Hp.
        rewrite filter_nil in *. cbn [length] in Hab.
        rewrite (lookup_total_app_l _ _ a) by lia.
        rewrite lookup_total_app_r by lia.
        replace (b - length (filter P (seq 0 n)))%nat with 0%nat by lia.
        cbn. apply Hbelow. lia.
      * rewrite (filter_cons_False P n []) in * by exact Hp.
        rewrite filter_nil in *. cbn [length] in Hab. lia.
Qed.

Section Idempotent.
Context `{Extern}.

(** X7: after a pass no two retained objects intersect with exactly one
    snowball among them, so a second pass over the retained collection,
    without motion in between, marks nothing and retains it whole. *)
Theorem retained_collection_has_no_hit (objects : list SceneObject.t) (g g' : GLState) :
  let alive := alive_objects objects g in
  (forall a b, (a < b < length alive)%nat -> hit alive a b = false)
  /\ collision_pass alive = replicate (length alive) true
  /\ alive_objects alive g' = alive.
Proof.
  cbn zeta.
  assert (Hnone : forall a b,
             (a < b < length (alive_objects objects g))%nat ->
             hit (alive_objects objects g) a b = false).
  { intros a b Hab. rewrite alive_objects_kept in *.
    set (kept := kept_indices (collision_pass objects)) in *.
    rewrite length_map in Hab.
    unfold hit. rewrite !map_lookup_total by lia.
    assert (Horder : (kept !!! a < kept !!! b)%nat)
      by (apply filter_seq_increasing; exact Hab).
    assert (Hkept : forall i, (i < length kept)%nat ->
                              (kept !!! i < length objects)%nat
                              /\ collision_pass objects !!! (kept !!! i) = true).
    { intros i Hi.
      pose proof (list_elem_of_lookup_total_2 kept i Hi) as Hin.
      apply kept_indices_elem in Hin.
      destruct (collision_pass_marks objects) as [Hlen _]. rewrite Hlen in Hin.
      exact Hin. }
    destruct (Hkept a ltac:(lia)) as [_ Hflag].
    destruct (Hkept b ltac:(lia)) as [Hb _].
    fold (hit objects (kept !!! a) (kept !!! b)).
    destruct (hit objects (kept !!! a) (kept !!! b)) eqn:Hhit; [| reflexivity].
    rewrite (hit_first_marked objects (kept !!! a) (kept !!! b)) in Hflag;
      [discriminate | lia | exact Hhit]. }
  split; [exact Hnone |].
  pose proof (collision_pass_no_hit _ Hnone) as Hall.
  split.
  - apply all_true_replicate; [apply collision_pass_marks | exact Hall].
  - unfold alive_objects at 1.
    rewrite (sweep_all_retained _ _ g' Hall). reflexivity.
Qed.

End Idempotent.

(** X8: an object marked by the pass has a marked partner of the other
    kind which it intersects: no object is removed alone, and whenever
    something is removed a snowball and an enemy are. *)
Theorem marked_object_has_marked_partner (objects : list SceneObject.t) (m : nat) :
  (m < length objects)%nat ->
  collision_pass objects !!! m = false ->
  exists q,
    (q < length objects)%nat /\ q <> m
    /\ collision_pass objects !!! q = false
    /\ SceneObject.IsSnowBall (objects !!! q)
       = negb (SceneObject.IsSnowBall (objects !!! m))
    /\ SceneObject.IsIntersected (objects !!! m) (objects !!! q) = true.
Proof.
  intros Hm Hmarked.
  destruct (collision_pass_marks objects) as [_ Hmarks].
  apply Hmarks in Hmarked as (a & b & Hab & Hmab & Hex & Hhit); [| exact Hm].
  destruct (hit_examined_marked objects a b Hab Hhit Hex) as [Ha Hb].
  unfold hit in Hhit. apply andb_prop in Hhit as [Hmeet Hxor].
  destruct Hmab as [-> | ->].
  - exists b. split; [lia | split; [lia | split; [exact Hb | split; [| exact Hmeet]]]].
    destruct (SceneObject.IsSnowBall (objects !!! a)),
             (SceneObject.IsSnowBall (objects !!! b)); try reflexivity; discriminate.
  - exists a. split; [lia | split; [lia | split; [exact Ha | split]]].
    + destruct (SceneObject.IsSnowBall (objects !!! a)),
               (SceneObject.IsSnowBall (objects !!! b)); try reflexivity; discriminate.
    + rewrite IsIntersected_comm. exact Hmeet.
Qed.

(** ** Further properties of the motion step *)

Lemma vec3_eq (a b : glm.vec3) :
  glm.x a = glm.x b -> glm.y a = glm.y b -> glm.z a = glm.z b -> a = b.
Proof. destruct a, b. cbn. intros -> -> ->. reflexivity. Qed.

(** X9: the motion step composes additively in the time step: moving by
    [dt1] and then by [dt2] is moving by [dt1 + dt2]; an object of speed
    zero, as every cube enemy is, stays where it is; and the step keeps the
    kind and the collider radius of every object. *)
Theorem move_objects_additive (dt1 dt2 : GLfloat) (objects : list SceneObject.t) :
  move_objects dt2 (move_objects dt1 objects) = move_objects (dt1 + dt2) objects
  /\ (forall i,
        (i < length objects)%nat ->
        SceneObject.speed_ (objects !!! i) = 0 ->
        SceneObject.position_ (move_objects dt1 objects !!! i)
        = SceneObject.position_ (objects !!! i))
  /\ map SceneObject.IsSnowBall (move_objects dt1 objects)
     = map SceneObject.IsSnowBall objects
  /\ map SceneObject.collider_radius_ (move_objects dt1 objects)
     = map SceneObject.collider_radius_ objects.
Proof.
  unfold move_objects. split; [| split; [| split]].
  - rewrite map_map. apply map_ext. intros o.
    unfold SceneObject.Shift, SceneObject.GetDirection, SceneObject.GetSpeed.
    cbn [SceneObject.model SceneObject.position_ SceneObject.direction_
         SceneObject.speed_ SceneObject.collider_radius_ SceneObject.class_].
    f_equal. apply vec3_eq; cbn [glm.add3 glm.scale3 glm.x glm.y glm.z]; ring.
  - intros i Hi Hspeed. rewrite map_lookup_total by exact Hi.
    unfold SceneObject.Shift, SceneObject.GetSpeed. cbn [SceneObject.position_].
    rewrite Hspeed.
    apply vec3_eq; cbn [glm.add3 glm.scale3 glm.x glm.y glm.z]; ring.
  - rewrite map_map. apply map_ext. reflexivity.
  - rewrite map_map. apply map_ext. reflexivity.
Qed.

Lemma move_objects_additive_witness :
  SceneObject.position_
    (move_objects 1 [enemy_at (glm.mkvec3 1 0 0)] !!! 0%nat)
  = SceneObject.position_ ([enemy_at (glm.mkvec3 1 0 0)] !!! 0%nat).
Proof.
  destruct (move_objects_additive 1 0 [enemy_at (glm.mkvec3 1 0 0)])
    as (_ & Hstill & _).
  apply Hstill; [cbn [length]; lia |].
  change ([enemy_at (glm.mkvec3 1 0 0)] !!! 0%nat) with (enemy_at (glm.mkvec3 1 0 0)).
  destruct (@CubeEnemy_new_fields example_extern (glm.mkvec3 1 0 0) (glm.mkvec3 1 0 0)
              0 1 0%nat) as (_ & _ & Hspeed & _).
  exact Hspeed.
Defined.

(** ** Further properties of the two spawning calls and of the tick *)

Section TickMore.
Context `{Extern}.

(** A snowball returned by [CreateSnowBall] is the one described by
    [thrown]. *)
Lemma CreateSnowBall_some (p : Player.t) (w : World) (snowball : SceneObject.t) :
  fst (fst (Player.CreateSnowBall p w)) = Some snowball ->
  snowball = fst (thrown p w)
  /\ glfwGetMouseButton w = true
  /\ Player.next_creation_time_ p < clock w (clock_reads w).
Proof.
  intros Hsome.
  destruct (glfwGetMouseButton w) eqn:Hbutton.
  - destruct (Rlt_dec (Player.next_creation_time_ p) (clock w (clock_reads w)))
      as [Hlate | Hearly].
    + rewrite (CreateSnowBall_fires p w Hbutton Hlate) in Hsome. cbn [fst] in Hsome.
      injection Hsome as <-. auto.
    + rewrite (CreateSnowBall_holds p w Hbutton) in Hsome by lra. discriminate.
  - rewrite (CreateSnowBall_released p w Hbutton) in Hsome. discriminate.
Qed.

Lemma CreateSnowBall_some_kind (p : Player.t) (w : World) (snowball : SceneObject.t) :
  fst (fst (Player.CreateSnowBall p w)) = Some snowball ->
  SceneObject.IsSnowBall snowball = true.
Proof.
  intros Hsome. destruct (CreateSnowBall_some p w snowball Hsome) as (-> & _).
  destruct (SnowBall_new_fields
              (glm.add3 (Player.position_ p) (glm.scale3 (aim p w) (15 / 10)))
              (aim p w) (gl w)) as (_ & _ & _ & _ & Hkind & _).
  exact Hkind.
Qed.

(** An enemy returned by [CreateEnemy] is not a snowball. *)
Lemma CreateEnemy_some_kind (c : EnemyCreator.t) (position : glm.vec3) (w : World)
    (enemy : SceneObject.t) :
  fst (fst (EnemyCreator.CreateEnemy c position w)) = Some enemy ->
  SceneObject.IsSnowBall enemy = false.
Proof.
  intros Hsome.
  destruct (Rle_dec (clock w (clock_reads w)) (EnemyCreator.next_creation_time_ c))
    as [Hearly | Hlate].
  - rewrite CreateEnemy_waiting in Hsome by exact Hearly. discriminate.
  - destruct (CreateEnemy_spawned c position w)
      as (c4 & c5 & axis & angle & size & g & _ & Hspawn); [lra |].
    rewrite Hspawn in Hsome. injection Hsome as <-.
    destruct (CubeEnemy_new_fields
                (ring_point position (fst (EnemyCreator.draw EnemyCreator.radius_ c5))
                            (fst (EnemyCreator.draw EnemyCreator.angle_ c4)))
                axis angle size g) as (_ & _ & _ & _ & Hkind).
    exact Hkind.
Qed.

(** X10: a tick retains the moved objects that survive the pass, in their
    order, and appends at most a new snowball and then at most a new enemy:
    the collection grows by at most two objects; the previous time becomes
    the reading of the clock taken at the start of the tick. *)
Theorem tick_appends_new_objects (game : Game) :
  let now := clock (world game) (clock_reads (world game)) in
  let moved := move_objects (now - prev_time game) (objects game) in
  let retained := alive_objects moved (gl (world game)) in
  exists new_snowball new_enemy,
    objects (fst (tick game))
    = push_back_if (push_back_if retained new_snowball) new_enemy
    /\ (forall snowball, new_snowball = Some snowball ->
                         SceneObject.IsSnowBall snowball = true)
    /\ (forall enemy, new_enemy = Some enemy -> SceneObject.IsSnowBall enemy = false)
    /\ retained `sublist_of` moved
    /\ (length (objects (fst (tick game))) <= length (objects game) + 2)%nat
    /\ prev_time (fst (tick game)) = now.
Proof.
  cbn zeta. unfold tick. cbn [glfwGetTime gl].
  set (now := clock (world game) (clock_reads (world game))).
  set (moved := move_objects (now - prev_time game) (objects game)).
  pose proof (sweep_loop moved (collision_pass moved) (gl (world game)) (length moved)
                         (le_n _)) as (_ & Hsub & _).
  rewrite take_ge in Hsub by lia.
  fold (sweep moved (collision_pass moved) (gl (world game))) in Hsub.
  unfold alive_objects.
  destruct (sweep moved (collision_pass moved) (gl (world game)))
    as [[retained destroyed] g] eqn:Hsweep.
  cbn [fst snd] in Hsub |- *.
  destruct (Player.CreateSnowBall (player game) _) as [[new_snowball p] w] eqn:Hthrow.
  destruct (EnemyCreator.CreateEnemy (enemy_creator game) _ w)
    as [[new_enemy c] w'] eqn:Hspawn.
  cbn [fst snd objects prev_time].
  exists new_snowball, new_enemy.
  split; [reflexivity |].
  split.
  { intros snowball ->.
    eapply CreateSnowBall_some_kind. rewrite Hthrow. reflexivity. }
  split.
  { intros enemy ->.
    eapply CreateEnemy_some_kind. rewrite Hspawn. reflexivity. }
  split; [exact Hsub |].
  split; [| reflexivity].
  apply sublist_length in Hsub.
  assert (Hmoved : length moved = length (objects game))
    by (unfold moved, move_objects; apply length_map).
  destruct new_snowball, new_enemy; cbn [push_back_if]; rewrite ?length_app;
    cbn [length]; lia.
Qed.

End TickMore.

Section SpawnMore.
Context `{Extern}.

(** A draw gives a value of the distribution and changes the engine only. *)
Lemma draw_spec (dist : EnemyCreator.t -> R * R) (c : EnemyCreator.t) :
  fst (EnemyCreator.draw dist c)
  = fst (uniform_real_distribution (fst (dist c)) (snd (dist c)) (EnemyCreator.rng_ c))
  /\ EnemyCreator.timedelay_ (snd (EnemyCreator.draw dist c)) = EnemyCreator.timedelay_ c
  /\ EnemyCreator.next_creation_time_ (snd (EnemyCreator.draw dist c))
     = EnemyCreator.next_creation_time_ c
  /\ EnemyCreator.angle_ (snd (EnemyCreator.draw dist c)) = EnemyCreator.angle_ c
  /\ EnemyCreator.radius_ (snd (EnemyCreator.draw dist c)) = EnemyCreator.radius_ c
  /\ EnemyCreator.size_ (snd (EnemyCreator.draw dist c)) = EnemyCreator.size_ c.
Proof.
  unfold EnemyCreator.draw.
  destruct (uniform_real_distribution _ _ _) as [value rng]. cbn. auto 6.
Qed.

(** The whole result of a call of [CreateEnemy] that spawns. *)
Lemma CreateEnemy_spawned_full (c : EnemyCreator.t) (position : glm.vec3) (w : World) :
  EnemyCreator.next_creation_time_ c < clock w (clock_reads w) ->
  exists (angle_position radius size angle_rotation : R) (rotation_axis : glm.vec3)
         (rng5 rng6 : mt19937),
    radius = fst (uniform_real_distribution (fst (EnemyCreator.radius_ c))
                                            (snd (EnemyCreator.radius_ c)) rng5)
    /\ size = fst (uniform_real_distribution (fst (EnemyCreator.size_ c))
                                             (snd (EnemyCreator.size_ c)) rng6)
    /\ fst (fst (EnemyCreator.CreateEnemy c position w))
       = Some (fst (CubeEnemy.new (ring_point position radius angle_position)
                                  rotation_axis angle_rotation size (gl w)))
    /\ EnemyCreator.next_creation_time_ (snd (fst (EnemyCreator.CreateEnemy c position w)))
       = clock w (S (clock_reads w)) + EnemyCreator.timedelay_ c
    /\ EnemyCreator.timedelay_ (snd (fst (EnemyCreator.CreateEnemy c position w)))
       = EnemyCreator.timedelay_ c
    /\ EnemyCreator.radius_ (snd (fst (EnemyCreator.CreateEnemy c position w)))
       = EnemyCreator.radius_ c
    /\ EnemyCreator.size_ (snd (fst (EnemyCreator.CreateEnemy c position w)))
       = EnemyCreator.size_ c
    /\ clock_reads (snd (EnemyCreator.CreateEnemy c position w)) = S (S (clock_reads w))
    /\ clock (snd (EnemyCreator.CreateEnemy c position w)) = clock w.
Proof.
  intros Hlate. unfold EnemyCreator.CreateEnemy, glfwGetTime.
  apply Rleb_false in Hlate. rewrite Hlate.
  set (c1 := EnemyCreator.set_next_creation_time c _).
  pose proof (draw_spec EnemyCreator.angle_ c1) as Hs1.
  destruct (EnemyCreator.draw EnemyCreator.angle_ c1) as [angle_rotation c2].
  pose proof (draw_spec EnemyCreator.angle_ c2) as Hs2.
  destruct (EnemyCreator.draw EnemyCreator.angle_ c2) as [phi c3].
  pose proof (draw_spec EnemyCreator.angle_ c3) as Hs3.
  destruct (EnemyCreator.draw EnemyCreator.angle_ c3) as [theta c4].
  pose proof (draw_spec EnemyCreator.angle_ c4) as Hs4.
  destruct (EnemyCreator.draw EnemyCreator.angle_ c4) as [angle_position c5].
  pose proof (draw_spec EnemyCreator.radius_ c5) as Hs5.
  destruct (EnemyCreator.draw EnemyCreator.radius_ c5) as [radius c6].
  pose proof (draw_spec EnemyCreator.size_ c6) as Hs6.
  destruct (EnemyCreator.draw EnemyCreator.size_ c6) as [size c7].
  cbn [fst snd] in Hs1, Hs2, Hs3, Hs4, Hs5, Hs6.
  destruct Hs1 as (_ & Ht1 & Hn1 & _ & Hr1 & Hz1).
  destruct Hs2 as (_ & Ht2 & Hn2 & _ & Hr2 & Hz2).
  destruct Hs3 as (_ & Ht3 & Hn3 & _ & Hr3 & Hz3).
  destruct Hs4 as (_ & Ht4 & Hn4 & _ & Hr4 & Hz4).
  destruct Hs5 as (Hv5 & Ht5 & Hn5 & _ & Hr5 & Hz5).
  destruct Hs6 as (Hv6 & Ht6 & Hn6 & _ & Hr6 & Hz6).
  destruct (CubeEnemy.new _ _ _ _ _) as [new_obj g] eqn:Hnew.
  exists angle_position, radius, size, angle_rotation,
         (glm.mkvec3 (cos phi * sin theta) (sin phi) (cos phi * cos theta)),
         (EnemyCreator.rng_ c5), (EnemyCreator.rng_ c6).
  cbn [fst snd set_gl clock clock_reads gl].
  split; [rewrite Hv5, Hr4, Hr3, Hr2, Hr1; reflexivity |].
  split; [rewrite Hv6, Hz5, Hz4, Hz3, Hz2, Hz1; reflexivity |].
  split.
  { unfold ring_point. change (Some new_obj) with (Some (fst (new_obj, g))).
    rewrite <- Hnew. reflexivity. }
  split; [rewrite Hn6, Hn5, Hn4, Hn3, Hn2, Hn1; reflexivity |].
  split; [rewrite Ht6, Ht5, Ht4, Ht3, Ht2, Ht1; reflexivity |].
  split; [rewrite Hr6, Hr5, Hr4, Hr3, Hr2, Hr1; reflexivity |].
  split; [rewrite Hz6, Hz5, Hz4, Hz3, Hz2, Hz1; reflexivity |].
  split; reflexivity.
Qed.

Lemma ring_point_distance (position : glm.vec3) (radius planarAngle : R) :
  euclidean_distance (ring_point position radius planarAngle) position = Rabs radius.
Proof.
  unfold euclidean_distance, ring_point.
  cbn [glm.add3 glm.lscale3 glm.x glm.y glm.z].
  rewrite <- sqrt_Rsqr_abs. f_equal. unfold Rsqr.
  pose proof (sin2_cos2 planarAngle) as Hone. unfold Rsqr in Hone.
  set (sa := sin planarAngle) in *. set (ca := cos planarAngle) in *.
  transitivity (radius * radius * (sa * sa + ca * ca)); [ring | rewrite Hone; ring].
Qed.

(** X14: an enemy that the spawner produces is a cube enemy at a distance
    from the reference position equal to the drawn radius, hence between
    the two bounds of the radius distribution when they are not negative;
    its collider radius is twice the drawn size, hence between twice the
    bounds of the size distribution; and it does not move: direction and
    speed are zero. *)
Theorem CreateEnemy_distance_and_size (c : EnemyCreator.t) (position : glm.vec3)
    (w : World) (enemy : SceneObject.t) :
  (forall a b rng, a <= b -> a <= fst (uniform_real_distribution a b rng) <= b) ->
  0 <= fst (EnemyCreator.radius_ c) <= snd (EnemyCreator.radius_ c) ->
  fst (EnemyCreator.size_ c) <= snd (EnemyCreator.size_ c) ->
  fst (fst (EnemyCreator.CreateEnemy c position w)) = Some enemy ->
  fst (EnemyCreator.radius_ c)
  <= euclidean_distance (SceneObject.position_ enemy) position
  <= snd (EnemyCreator.radius_ c)
  /\ 2 * fst (EnemyCreator.size_ c)
     <= SceneObject.collider_radius_ enemy
     <= 2 * snd (EnemyCreator.size_ c)
  /\ SceneObject.speed_ enemy = 0
  /\ SceneObject.direction_ enemy = glm.splat3 0
  /\ SceneObject.IsSnowBall enemy = false.
Proof.
  intros Hrange Hradii Hsizes Hsome.
  destruct (Rle_dec (clock w (clock_reads w)) (EnemyCreator.next_creation_time_ c))
    as [Hearly | Hlate].
  { rewrite CreateEnemy_waiting in Hsome by exact Hearly. discriminate. }
  destruct (CreateEnemy_spawned_full c position w)
    as (angle_position & radius & size & angle_rotation & rotation_axis & rng5 & rng6
        & Hradius & Hsize & Hspawn & _); [lra |].
  rewrite Hspawn in Hsome. injection Hsome as <-.
  destruct (CubeEnemy_new_fields (ring_point position radius angle_position)
              rotation_axis angle_rotation size (gl w))
    as (Hposition & Hdirection & Hspeed & Hcollider & Hkind).
  pose proof (Hrange _ _ rng5 (proj2 Hradii)) as Hr. rewrite <- Hradius in Hr.
  pose proof (Hrange _ _ rng6 Hsizes) as Hs. rewrite <- Hsize in Hs.
  rewrite Hposition, Hcollider, ring_point_distance, Rabs_pos_eq by lra.
  repeat split; try assumption; lra.
Qed.

(** X15: a call of [CreateEnemy] that spawns records the next reading of
    the clock plus [timedelay] and keeps [timedelay] and the distributions;
    from then on no call spawns while the clock reads at most the recorded
    time. *)
Theorem CreateEnemy_rate_limited (c : EnemyCreator.t) (position : glm.vec3) (w : World) :
  EnemyCreator.next_creation_time_ c < clock w (clock_reads w) ->
  let c' := snd (fst (EnemyCreator.CreateEnemy c position w)) in
  (exists enemy, fst (fst (EnemyCreator.CreateEnemy c position w)) = Some enemy)
  /\ EnemyCreator.next_creation_time_ c'
     = clock w (S (clock_reads w)) + EnemyCreator.timedelay_ c
  /\ EnemyCreator.timedelay_ c' = EnemyCreator.timedelay_ c
  /\ EnemyCreator.radius_ c' = EnemyCreator.radius_ c
  /\ EnemyCreator.size_ c' = EnemyCreator.size_ c
  /\ forall position' w',
       clock w' (clock_reads w')
       <= clock w (S (clock_reads w)) + EnemyCreator.timedelay_ c ->
       fst (fst (EnemyCreator.CreateEnemy c' position' w')) = None.
Proof.
  intros Hlate c'. subst c'.
  destruct (CreateEnemy_spawned_full c position w Hlate)
    as (angle_position & radius & size & angle_rotation & rotation_axis & rng5 & rng6
        & _ & _ & Hspawn & Hnext & Hdelay & Hradius & Hsize & _).
  split; [eexists; exact Hspawn |].
  split; [exact Hnext |]. split; [exact Hdelay |].
  split; [exact Hradius |]. split; [exact Hsize |].
  intros position' w' Hsoon.
  rewrite CreateEnemy_waiting; [reflexivity |]. rewrite Hnext. exact Hsoon.
Qed.

End SpawnMore.

Section ThrowMore.
Context `{Extern}.

(** X13: a snowball returned by [CreateSnowBall] starts at distance 1.5
    from the position of the player, travels along a direction of length
    one at speed 13 and has collider radius 0.75. *)
Theorem CreateSnowBall_placement (p : Player.t) (w : World) (snowball : SceneObject.t) :
  fst (fst (Player.CreateSnowBall p w)) = Some snowball ->
  euclidean_distance (SceneObject.position_ snowball) (Player.position_ p) = 15 / 10
  /\ glm.length (SceneObject.direction_ snowball) = 1
  /\ SceneObject.direction_ snowball = aim p w
  /\ SceneObject.speed_ snowball = 13
  /\ SceneObject.collider_radius_ snowball = 75 / 100.
Proof.
  intros Hsome. destruct (CreateSnowBall_some p w snowball Hsome) as (-> & _).
  destruct (SnowBall_new_fields
              (glm.add3 (Player.position_ p) (glm.scale3 (aim p w) (15 / 10)))
              (aim p w) (gl w)) as (Hposition & Hdirection & Hspeed & Hradius & _).
  unfold thrown. rewrite Hposition, Hdirection, Hspeed, Hradius.
  pose proof (dot_direction_direction (Player.camera (looking p w))) as Hunit.
  fold (aim p w) in Hunit.
  split; [| split; [| auto]].
  - unfold euclidean_distance. cbn [glm.add3 glm.scale3 glm.x glm.y glm.z].
    apply eq_trans with (sqrt (Rsqr (15 / 10))); [f_equal | apply sqrt_Rsqr; lra].
    unfold glm.dot in Hunit. unfold Rsqr.
    transitivity (15 / 10 * (15 / 10)
                  * (glm.x (aim p w) * glm.x (aim p w) + glm.y (aim p w) * glm.y (aim p w)
                     + glm.z (aim p w) * glm.z (aim p w))); [ring | rewrite Hunit; ring].
  - unfold glm.length. rewrite Hunit. apply sqrt_1.
Qed.

(** X12: with the pointer at the centre of the window and the button
    released, [CreateSnowBall] returns nothing and leaves the player and the
    world as they were. *)
Theorem CreateSnowBall_idle (p : Player.t) (w : World) :
  cursor w = (IZR 512, IZR 384) ->
  glfwGetMouseButton w = false ->
  Player.CreateSnowBall p w = (None, p, w).
Proof.
  intros Hcursor Hreleased. rewrite CreateSnowBall_released by exact Hreleased.
  rewrite Hcursor. cbn [fst snd]. f_equal; [f_equal |].
  - destruct p as [[h v fov] position collider mouse delay next].
    unfold Player.look.
    cbn [Player.camera Player.position_ Player.collider_radius_ Player.mouse_speed_
         Player.timedelay_ Player.next_creation_time_ Camera.horizontal_angle_
         Camera.vertical_angle_ Camera.fov_].
    change (1024 / 2)%Z with 512%Z. change (768 / 2)%Z with 384%Z.
    f_equal. f_equal; ring.
  - destruct w as [g c r k b]. cbn in Hcursor. subst k. reflexivity.
Qed.

End ThrowMore.

Lemma increasing_clock (f : nat -> R) :
  (forall n, f n < f (S n)) -> forall n m, (n < m)%nat -> f n < f m.
Proof.
  intros Hstep n m Hnm. induction m as [| m IH]; [lia |].
  destruct (decide (n = m)) as [-> | Hne]; [apply Hstep |].
  apply Rlt_trans with (f m); [apply IH; lia | apply Hstep].
Qed.

Ltac simpl_world :=
  cbn [set_gl glfwSetCursorPos glfwGetMouseButton clock clock_reads gl cursor
       mouse_button_left Player.next_creation_time_ EnemyCreator.next_creation_time_].

Section FirstTick.
Context `{Extern}.

(** X11: when the clock reads more at every call, the first tick of the
    program spawns an enemy, and before it a snowball exactly when the
    button is down: neither the player nor the spawner waits for its delay
    at the start. *)
Theorem first_tick_spawns (seed : mt19937) (w : World) :
  (forall n, clock w n < clock w (S n)) ->
  map SceneObject.IsSnowBall (objects (fst (tick (start seed w))))
  = if glfwGetMouseButton w then [true; false] else [false].
Proof.
  intros Hclock.
  pose proof (increasing_clock (clock w) Hclock) as Hmono.
  unfold tick, start.
  cbn [Player.new EnemyCreator.new glfwGetTime fst snd objects player enemy_creator
       prev_time world clock clock_reads gl cursor mouse_button_left move_objects map].
  unfold sweep, collision_pass, for_size_t.
  cbn [length Nat.sub iter_size_t replicate set_gl gl clock clock_reads cursor
       mouse_button_left].
  set (r := clock_reads w).
  destruct (glfwGetMouseButton w) eqn:Hbutton; unfold glfwGetMouseButton in Hbutton.
  - rewrite CreateSnowBall_fires;
      [| exact Hbutton | simpl_world; apply Hmono; lia].
    simpl_world.
    match goal with
    | |- context [EnemyCreator.CreateEnemy ?c ?pos ?w'] =>
        destruct (CreateEnemy_spawned_full c pos w')
          as (a & rad & size & ar & axis & rng5 & rng6 & _ & _ & Hspawn & _);
          [simpl_world; apply Hmono; lia |];
        destruct (EnemyCreator.CreateEnemy c pos w') as [[new_enemy c'] w''];
        cbn [fst] in Hspawn; subst new_enemy
    end.
    cbn [push_back_if app fst objects map].
    match goal with
    | |- context [CubeEnemy.new ?p ?ax ?an ?s ?g] =>
        destruct (CubeEnemy_new_fields p ax an s g) as (_ & _ & _ & _ & Hkind)
    end.
    rewrite Hkind.
    match goal with
    | |- context [thrown ?p ?w'] =>
        destruct (SnowBall_new_fields
                    (glm.add3 (Player.position_ p) (glm.scale3 (aim p w') (15 / 10)))
                    (aim p w') (gl w')) as (_ & _ & _ & _ & Hsnow & _);
        change (SnowBall.new
                  (glm.add3 (Player.position_ p) (glm.scale3 (aim p w') (15 / 10)))
                  (aim p w') (gl w')) with (thrown p w') in Hsnow
    end.
    rewrite Hsnow. reflexivity.
  - rewrite CreateSnowBall_released by exact Hbutton.
    simpl_world.
    match goal with
    | |- context [EnemyCreator.CreateEnemy ?c ?pos ?w'] =>
        destruct (CreateEnemy_spawned_full c pos w')
          as (a & rad & size & ar & axis & rng5 & rng6 & _ & _ & Hspawn & _);
          [simpl_world; apply Hmono; lia |];
        destruct (EnemyCreator.CreateEnemy c pos w') as [[new_enemy c'] w''];
        cbn [fst] in Hspawn; subst new_enemy
    end.
    cbn [push_back_if app fst objects map].
    match goal with
    | |- context [CubeEnemy.new ?p ?ax ?an ?s ?g] =>
        destruct (CubeEnemy_new_fields p ax an s g) as (_ & _ & _ & _ & Hkind)
    end.
    rewrite Hkind. reflexivity.
Qed.

End FirstTick.

(** ** Further properties of the meshes *)

Lemma normalize_unit (v : glm.vec3) :
  0 < glm.dot v v -> glm.dot (glm.normalize v) (glm.normalize v) = 1.
Proof.
  intros Hpos. unfold glm.normalize, glm.dot at 1, glm.scale3.
  cbn [glm.x glm.y glm.z].
  pose proof (sqrt_sqrt (glm.dot v v) (Rlt_le _ _ Hpos)) as Hsq.
  assert (Hroot : sqrt (glm.dot v v) <> 0).
  { intros Hzero. rewrite Hzero in Hsq. lra. }
  set (n := sqrt (glm.dot v v)) in *.
  transitivity ((glm.x v * glm.x v + glm.y v * glm.y v + glm.z v * glm.z v) / (n * n));
    [field; exact Hroot |].
  fold (glm.dot v v). rewrite Hsq. field. lra.
Qed.

(** The matrix of the cube enemy applied to a vertex: the rotation about the
    normalised axis, by Rodrigues' formula, then the scaling. *)
Lemma rotate_scale_mul_vec (k angle : R) (rotation v : glm.vec3) :
  let a := glm.x (glm.normalize rotation) in
  let b := glm.y (glm.normalize rotation) in
  let c := glm.z (glm.normalize rotation) in
  let d := a * glm.x v + b * glm.y v + c * glm.z v in
  glm.truncate
    (glm.mul_vec (glm.rotate (glm.scale glm.identity (glm.splat3 k)) angle rotation)
                 (glm.extend v 1))
  = glm.mkvec3
      (k * (cos angle * glm.x v + (1 - cos angle) * d * a
            + sin angle * (b * glm.z v - c * glm.y v)))
      (k * (cos angle * glm.y v + (1 - cos angle) * d * b
            + sin angle * (c * glm.x v - a * glm.z v)))
      (k * (cos angle * glm.z v + (1 - cos angle) * d * c
            + sin angle * (a * glm.y v - b * glm.x v))).
Proof.
  cbv beta iota zeta delta
    [glm.rotate glm.scale glm.identity glm.splat3 glm.mul_vec glm.extend glm.truncate
     glm.add4 glm.scale4 glm.lscale3 glm.x4 glm.y4 glm.z4 glm.w4 glm.col0 glm.col1
     glm.col2 glm.col3].
  cbn [glm.x glm.y glm.z].
  set (a := glm.x (glm.normalize rotation)).
  set (b := glm.y (glm.normalize rotation)).
  set (c := glm.z (glm.normalize rotation)).
  set (co := cos angle). set (si := sin angle).
  set (x := glm.x v). set (y := glm.y v). set (z := glm.z v).
  clearbody a b c co si x y z.
  f_equal; ring.
Qed.

Lemma rotate_scale_vertex (k angle : R) (rotation v : glm.vec3) :
  0 < glm.dot rotation rotation ->
  let v' :=
    glm.truncate
      (glm.mul_vec (glm.rotate (glm.scale glm.identity (glm.splat3 k)) angle rotation)
                   (glm.extend v 1)) in
  glm.dot v' v' = k * k * glm.dot v v.
Proof.
  intros Hpos v'. subst v'. rewrite rotate_scale_mul_vec. cbn zeta.
  pose proof (normalize_unit rotation Hpos) as Haxis.
  pose proof (sin2_cos2 angle) as Hangle. unfold Rsqr in Hangle.
  unfold glm.dot in *. cbn [glm.x glm.y glm.z] in *.
  set (a := glm.x (glm.normalize rotation)) in *.
  set (b := glm.y (glm.normalize rotation)) in *.
  set (c := glm.z (glm.normalize rotation)) in *.
  set (co := cos angle) in *. set (si := sin angle) in *.
  set (x := glm.x v). set (y := glm.y v). set (z := glm.z v).
  clearbody a b c co si x y z. clear Hpos.
  set (d := a * x + b * y + c * z).
  set (V := x * x + y * y + z * z).
  transitivity
    (k * k * (co * co * V + (1 - co) * (1 - co) * (d * d) * (a * a + b * b + c * c)
              + (si * si) * ((a * a + b * b + c * c) * V - d * d)
              + 2 * co * (1 - co) * (d * d))).
  - subst d V. ring.
  - rewrite Haxis. replace (si * si) with (1 - co * co) by lra. ring.
Qed.

Section MeshMore.
Context `{Extern}.

(** X16: the mesh of a cube enemy has as many vertices as the loaded mesh
    and the loaded texture coordinates; when the rotation axis is not the
    zero vector, every vertex is at [|scale_coef|] times the distance from
    the origin of the loaded vertex, the factor by which the collider radius
    2 is multiplied, and with angle zero and scale one the loaded vertices
    are kept as they are. *)
Theorem CubeEnemy_mesh_scaled (position rotation : glm.vec3) (angle scale_coef : R)
    (g : GLState) :
  let loaded := fst (fst (loadOBJ "cube.obj")) in
  let enemy := fst (CubeEnemy.new position rotation angle scale_coef g) in
  length (Model.vertices_ (SceneObject.model enemy)) = length loaded
  /\ Model.uvs_ (SceneObject.model enemy) = snd (fst (loadOBJ "cube.obj"))
  /\ SceneObject.collider_radius_ enemy = 2 * scale_coef
  /\ (0 < glm.dot rotation rotation ->
      (forall i, (i < length loaded)%nat ->
                 glm.length (Model.vertices_ (SceneObject.model enemy) !!! i)
                 = Rabs scale_coef * glm.length (loaded !!! i))
      /\ (angle = 0 -> scale_coef = 1 ->
          Model.vertices_ (SceneObject.model enemy) = loaded)).
Proof.
  cbn zeta. unfold CubeEnemy.new, SceneObject.of_obj, Model.of_obj.
  destruct (loadBMP_custom "enemy_texture.bmp" g) as [texture g'].
  destruct (loadOBJ "cube.obj") as [[vertices uvs] normals].
  cbn [fst snd SceneObject.model SceneObject.collider_radius_ Model.vertices_
       Model.uvs_ Model.texture_].
  split; [apply length_map |]. split; [reflexivity |]. split; [reflexivity |].
  intros Haxis. split.
  - intros i Hi. rewrite map_lookup_total by exact Hi.
    unfold glm.length. rewrite rotate_scale_vertex by exact Haxis.
    change (scale_coef * scale_coef) with (Rsqr scale_coef).
    rewrite sqrt_mult; [| apply Rle_0_sqr |].
    + rewrite sqrt_Rsqr_abs. reflexivity.
    + unfold glm.dot.
      pose proof (Rle_0_sqr (glm.x (vertices !!! i))).
      pose proof (Rle_0_sqr (glm.y (vertices !!! i))).
      pose proof (Rle_0_sqr (glm.z (vertices !!! i))).
      unfold Rsqr in *. lra.
  - intros -> ->. rewrite <- (map_id vertices) at 2. apply map_ext. intros v.
    rewrite rotate_scale_mul_vec. cbn zeta. rewrite cos_0, sin_0.
    apply vec3_eq; cbn [glm.x glm.y glm.z]; ring.
Qed.

(** The three vectors grow together, by a multiple of three. *)
Lemma for_int_inv {St : Type} (Q : St -> Prop) (lo hi : Z) (body : Z -> St -> St) (s : St) :
  Q s -> (forall i st, Q st -> Q (body i st)) -> Q (for_int lo hi body s).
Proof.
  intros Hinit Hstep. unfold for_int.
  apply (iter_int_ind (fun _ st => Q st)); [exact Hinit |].
  intros i st _. apply Hstep.
Qed.

Lemma createSphere_whole_triangles (radius : R) (sectorCount stackCount : Z)
    (out : Mesh) (position : glm.vec3) :
  exists triangles : Z,
    grown out (createSphere radius sectorCount stackCount out position) (3 * triangles).
Proof.
  unfold createSphere.
  apply (for_int_inv (fun acc => exists t : Z, grown out acc (3 * t)));
    [exists 0%Z; apply grown_refl |].
  intros i acc Hacc. unfold sphere_stack.
  apply (for_int_inv (fun st => exists t : Z, grown out (snd st) (3 * t)));
    [exact Hacc |].
  intros j [[k1 k2] acc'] [t Hgrown]. cbn [snd] in Hgrown.
  exists (t + ((if negb (i =? 0) then 1 else 0)
               + (if negb (i =? stackCount - 1) then 1 else 0)))%Z.
  replace (3 * (t + ((if negb (i =? 0) then 1 else 0)
                     + (if negb (i =? stackCount - 1) then 1 else 0))))%Z
    with (3 * t + sector_vertices stackCount i)%Z.
  - apply grown_sphere_sector, Hgrown.
  - unfold sector_vertices.
    destruct (negb (i =? 0)%Z), (negb (i =? stackCount - 1)%Z); lia.
Qed.

(** X17: for all arguments of the constructor, the mesh of a snowball has
    as many texture coordinates as vertices, and their number is a multiple
    of three: the vertex list is made of whole triangles. *)
Theorem SnowBall_mesh_whole_triangles (position direction : glm.vec3)
    (exclusion_radius : GLfloat) (sectorCount stackCount : Z) (speed : GLfloat)
    (g : GLState) :
  let snowball :=
    fst (SnowBall.new_with position direction exclusion_radius sectorCount stackCount
                           speed g) in
  length (Model.uvs_ (SceneObject.model snowball))
  = length (Model.vertices_ (SceneObject.model snowball))
  /\ exists triangles : nat,
       length (Model.vertices_ (SceneObject.model snowball)) = (3 * triangles)%nat.
Proof.
  cbn zeta. unfold SnowBall.new_with, SceneObject.of_vertices, Model.of_vertices.
  destruct (loadBMP_custom "ice_texture.bmp" g) as [texture g'].
  cbn [fst SceneObject.model Model.vertices_ Model.uvs_ Model.texture_].
  destruct (createSphere_whole_triangles exclusion_radius sectorCount stackCount
              (mkMesh [] [] []) position) as (t & Hv & _ & Hu).
  cbn [mesh_vertices mesh_uvs length] in Hv, Hu.
  split; [lia |]. exists (Z.to_nat t). lia.
Qed.

End MeshMore.

(** ** The properties on the examples *)

(** The theorem on two intersecting enemies: nothing is marked. *)
Lemma pass_without_hit_keeps_all_witness :
  collision_pass two_enemies = [true; true].
Proof.
  destruct (@pass_without_hit_keeps_all example_extern two_enemies 0%nat)
    as (Hpass & _); [| exact Hpass].
  intros a b Hab. change (length two_enemies) with 2%nat in Hab.
  assert (a = 0%nat /\ b = 1%nat) as [-> ->] by lia.
  unfold hit.
  change (two_enemies !!! 0%nat) with (enemy_at (glm.mkvec3 0 0 0)).
  change (two_enemies !!! 1%nat) with (enemy_at (glm.mkvec3 1 0 0)).
  destruct (enemy_at_fields (glm.mkvec3 0 0 0)) as (_ & _ & ->).
  destruct (enemy_at_fields (glm.mkvec3 1 0 0)) as (_ & _ & ->).
  apply andb_false_r.
Defined.

(** The theorem on the marked enemy of the scene: a snowball is marked
    with it. *)
Lemma marked_object_has_marked_partner_witness :
  exists q,
    (q < 3)%nat /\ q <> 1%nat
    /\ collision_pass two_snowballs_one_enemy !!! q = false
    /\ SceneObject.IsSnowBall (two_snowballs_one_enemy !!! q) = true.
Proof.
  destruct (marked_object_has_marked_partner two_snowballs_one_enemy 1)
    as (q & Hq & Hother & Hmarked & Hkind & _).
  - change (length two_snowballs_one_enemy) with 3%nat. lia.
  - rewrite collision_pass_scene. reflexivity.
  - exists q. destruct scene_kinds as (_ & Hk1 & _). rewrite Hk1 in Hkind.
    change (length two_snowballs_one_enemy) with 3%nat in Hq. auto.
Defined.

(** The first tick with the button down and a clock that counts its
    calls. *)
Lemma first_tick_spawns_witness :
  let w := @mkWorld example_extern 0%nat ticking_clock 0%nat (IZR 512, IZR 384) true in
  map SceneObject.IsSnowBall (objects (fst (tick (@start example_extern tt w))))
  = [true; false].
Proof.
  intros w.
  apply (@first_tick_spawns example_extern tt w).
  intros n. unfold w. cbn [clock]. unfold ticking_clock. rewrite S_INR. lra.
Defined.

(** The theorem on the default player with the button released. *)
Lemma CreateSnowBall_idle_witness :
  let p := Player.mk (Camera.mk 0 0 45) (glm.splat3 0) 1 (5 / 1000) (2 / 10) (1 / 2) in
  let w := @mkWorld example_extern 0%nat (fun _ => 1) 0%nat (IZR 512, IZR 384) false in
  Player.CreateSnowBall p w = (None, p, w).
Proof.
  intros p w. apply (@CreateSnowBall_idle example_extern p w); reflexivity.
Defined.

(** The theorem on the snowball of the first call. *)
Lemma CreateSnowBall_placement_witness :
  exists snowball,
    fst (fst first_call) = Some snowball
    /\ SceneObject.speed_ snowball = 13
    /\ SceneObject.collider_radius_ snowball = 75 / 100.
Proof.
  assert (Hsome : fst (fst first_call)
                  = Some (fst (thrown (fst held_fire_start) (snd held_fire_start))))
    by (rewrite first_call_eq; reflexivity).
  eexists. split; [exact Hsome |].
  destruct (@CreateSnowBall_placement example_extern (fst held_fire_start)
              (snd held_fire_start) _ Hsome) as (_ & _ & _ & Hspeed & Hradius).
  split; [exact Hspeed | exact Hradius].
Defined.

(** The theorem on the first call of the default spawner. *)
Lemma CreateEnemy_distance_and_size_witness :
  exists enemy,
    fst (fst (EnemyCreator.CreateEnemy (fst spawner_start) (glm.splat3 0)
                                       (snd spawner_start)))
    = Some enemy
    /\ 5 <= euclidean_distance (SceneObject.position_ enemy) (glm.splat3 0) <= 50
    /\ SceneObject.speed_ enemy = 0.
Proof.
  destruct (@CreateEnemy_spawned example_extern (fst spawner_start) (glm.splat3 0)
              (snd spawner_start))
    as (c4 & c5 & rotation_axis & angle_rotation & size & g & _ & Hspawn).
  - cbn. lra.
  - eexists. split; [exact Hspawn |].
    assert (Hrange : forall a b (rng : @mt19937 example_extern),
               a <= b -> a <= fst (uniform_real_distribution a b rng) <= b)
      by (intros a b rng Hab; cbn; lra).
    assert (Hradii : 0 <= fst (EnemyCreator.radius_ (fst spawner_start))
                     <= snd (EnemyCreator.radius_ (fst spawner_start)))
      by (cbn; lra).
    assert (Hsizes : fst (EnemyCreator.size_ (fst spawner_start))
                     <= snd (EnemyCreator.size_ (fst spawner_start)))
      by (cbn; lra).
    destruct (@CreateEnemy_distance_and_size example_extern (fst spawner_start)
                (glm.splat3 0) (snd spawner_start) _ Hrange Hradii Hsizes Hspawn)
      as (Hdistance & _ & Hspeed & _).
    split; [| exact Hspeed].
    change (fst (EnemyCreator.radius_ (fst spawner_start))) with 5 in Hdistance.
    change (snd (EnemyCreator.radius_ (fst spawner_start))) with 50 in Hdistance.
      exact Hdistance.
Defined.

(** The theorem on the first call of the default spawner: the delay of 3
    is counted from the second reading of the clock. *)
Lemma CreateEnemy_rate_limited_witness :
  EnemyCreator.next_creation_time_
    (snd (fst (EnemyCreator.CreateEnemy (fst spawner_start) (glm.splat3 0)
                                        (snd spawner_start))))
  = held_fire_clock 2 + 3.
Proof.
  destruct (@CreateEnemy_rate_limited example_extern (fst spawner_start) (glm.splat3 0)
              (snd spawner_start)) as (_ & Hnext & _).
  - cbn. lra.
  - exact Hnext.
Defined.

(** The theorem on the corner of the cube, turned by one radian about the
    vertical axis and doubled. *)
Lemma CubeEnemy_mesh_scaled_witness :
  glm.length
    (Model.vertices_
       (SceneObject.model
          (fst (@CubeEnemy.new corner_extern (glm.splat3 0) (glm.mkvec3 0 1 0) 1 2 0%nat)))
     !!! 0%nat)
  = Rabs 2 * glm.length (glm.mkvec3 1 1 1).
Proof.
  destruct (@CubeEnemy_mesh_scaled corner_extern (glm.splat3 0) (glm.mkvec3 0 1 0) 1 2
              0%nat) as (_ & _ & _ & Haxis).
  destruct Haxis as (Hlength & _).
  - unfold glm.dot. cbn [glm.x glm.y glm.z]. lra.
  - apply (Hlength 0%nat). cbn. lia.
Defined.
